(** * Pololu Maestro serial master: request queue, response correlator, codec

    A shallow embedding of the [Master] class (the serial-port protocol
    engine of node-pololu-maestro) and the properties established about it.

    The class is event driven and single threaded.  Its state is the request
    queue, the list of response handlers and the response buffer; it reacts
    to API calls, to the completion of a write by the serial port, to inbound
    data and to response timers.  Each reaction runs to completion, so the
    class is modelled as a deterministic step function over an explicit
    state, with the JavaScript closures defunctionalised. *)

From Stdlib Require Import ZArith List Bool Lia.
From stdpp Require Import base list gmap strings.
Import ListNotations.

Local Open Scope Z_scope.

(** ** JavaScript integer operators

    Numbers that reach the codec are integers; the bit operators first wrap
    their operands to 32-bit two's complement ([ToInt32]). *)

Module JS.

Definition to_int32 (z : Z) : Z :=
  let m := z mod 2 ^ 32 in
  if m <? 2 ^ 31 then m else m - 2 ^ 32.

(** [a & b] *)
Definition and (a b : Z) : Z := Z.land (to_int32 a) (to_int32 b).

(** [a >> b], sign propagating *)
Definition shr (a b : Z) : Z := Z.shiftr (to_int32 a) (b mod 32).

(** [a << b] *)
Definition shl (a b : Z) : Z := to_int32 (Z.shiftl (to_int32 a) (b mod 32)).

(** Storing a number in a [Buffer] cell keeps its low eight bits. *)
Definition uint8 (z : Z) : Z := z mod 256.

End JS.

(** ** Values, errors and promise results *)

(** The values the promises of the class resolve with: [undefined]
    ([setTarget], [setMultipleTargets]), a number ([getPosition]) and the
    object built by [getMultiplePositions], whose keys are channel numbers. *)
Inductive jsval :=
| VUndef
| VNum (n : Z)
| VPositions (m : gmap Z Z).

(** The [Error] objects the class creates or passes on, told apart by the
    message they are built with. *)
Inductive error :=
| SerialPortClosed                (* new Error('Serial port closed.') *)
| ResponseTimeout                 (* new Error('Response timeout.') *)
| WriteError (detail : nat)       (* the error handed over by serialPort.write *)
| TargetMismatch (device : Z) (channel expected actual : jsval)
    (* `Expected the target of ${device}:${channel} to be ${target}, got: ${actualTarget}.` *)
| GetPositionFailed (device channel : Z) (cause : error)
    (* `Failed to get position for channel ${device}:${channel}: ${err.message}` *)
| JsTypeError.                    (* property read on undefined *)

Inductive result :=
| Resolved (v : jsval)
| Rejected (e : error).

(** An element of [options.targets].  [setMultipleTargets] reads each element
    as a number, the check in [trySetMultipleTargets] destructures it as
    [{channel, target}]; both shapes are values a caller can pass. *)
Inductive target_arg :=
| TNum (t : Z)
| TObj (channel target : jsval).

(** [ToInt32] of an element: an object converts to [NaN], hence to 0. *)
Definition target_int32 (t : target_arg) : Z :=
  match t with
  | TNum n => JS.to_int32 n
  | TObj _ _ => 0
  end.

(** The properties bound by the pattern [{channel, target}]; a number has
    neither. *)
Definition prop_channel (t : target_arg) : jsval :=
  match t with
  | TNum _ => VUndef
  | TObj c _ => c
  end.

Definition prop_target (t : target_arg) : jsval :=
  match t with
  | TNum _ => VUndef
  | TObj _ t => t
  end.

(** [a !== b] on the values above (objects compare by reference; two
    distinct position objects never meet in the code). *)
Definition strict_neq (a b : jsval) : bool :=
  match a, b with
  | VUndef, VUndef => false
  | VNum x, VNum y => negb (x =? y)
  | _, _ => true
  end.

(** [actualTargets[key]] on the object of [getMultiplePositions]: its keys
    are the channel numbers it was asked for, so the key [undefined] is
    absent. *)
Definition positions_get (m : gmap Z Z) (key : jsval) : jsval :=
  match key with
  | VNum c => match m !! c with Some p => VNum p | None => VUndef end
  | _ => VUndef
  end.

(** ** Command codec *)

Definition targetLow (target : Z) : Z := JS.and target 0x7F.
Definition targetHigh (target : Z) : Z := JS.and (JS.shr target 7) 0x7F.

(** [Buffer.from([0xAA, device, 0x04, channel, targetLow, targetHigh])] *)
Definition setTargetFrame (device channel target : Z) : list Z :=
  map JS.uint8 [0xAA; device; 0x04; channel; targetLow target; targetHigh target].

(** [Buffer.from([0xAA, device, 0x10, channel])] *)
Definition getPositionFrame (device channel : Z) : list Z :=
  map JS.uint8 [0xAA; device; 0x10; channel].

(** The frame of [setMultipleTargets]: a buffer of [5 + targets.length * 2]
    cells, filled by index.  [Buffer.allocUnsafe] leaves the cells
    unspecified; every one of them is overwritten. *)
Definition writeTarget (frame : list Z) (i : nat) (target : target_arg) : list Z :=
  let frameI := (5 + i * 2)%nat in
  <[(frameI + 1)%nat := JS.uint8 (targetHigh (target_int32 target))]>
    (<[frameI := JS.uint8 (targetLow (target_int32 target))]> frame).

Fixpoint writeTargets (frame : list Z) (i : nat) (targets : list target_arg) : list Z :=
  match targets with
  | [] => frame
  | t :: ts => writeTargets (writeTarget frame i t) (S i) ts
  end.

Definition setMultipleTargetsFrame (device channel : Z) (targets : list target_arg)
  : list Z :=
  let frame0 := replicate (5 + length targets * 2) 0 in
  let frame1 :=
    <[4%nat := JS.uint8 channel]>
      (<[3%nat := JS.uint8 (Z.of_nat (length targets))]>
         (<[2%nat := JS.uint8 0x1F]>
            (<[1%nat := JS.uint8 device]>
               (<[0%nat := JS.uint8 0xAA]> frame0)))) in
  writeTargets frame1 0 targets.

(** [((responseFrame[1] << 8) + responseFrame[0]) & 0xFFFF] *)
Definition decodePosition (responseFrame : list Z) : Z :=
  JS.and (JS.shl (nth 1 responseFrame 0) 8 + nth 0 responseFrame 0) 0xFFFF.

(** ** Engine state *)

(** The promise machinery, defunctionalised.  A [continuation] is what
    happens once a promise of the class settles: the promise handed to the
    caller records its result; the others are the [then] callbacks of
    [trySetTarget] and [trySetMultipleTargets] and the [await] inside the
    loop of [getMultiplePositions]. *)
Inductive continuation :=
| KPromise (op : nat)
| KThenGetPosition (device channel : Z) (k : continuation)
| KThenCheckTarget (device channel target : Z) (k : continuation)
| KAwaitPosition (device channel : Z) (rest : list Z) (positions : gmap Z Z)
                 (k : continuation)
| KThenGetMultiplePositions (device : Z) (channels : list Z) (k : continuation)
| KThenCheckTargets (device : Z) (targets : list target_arg) (k : continuation).

(** The [done] argument of [requestAndResponse]; [getPosition] is its only
    caller. *)
Inductive donecb :=
| DoneGetPosition (k : continuation).

(** The [done] argument of [request]: the closure of [requestAndForget] or
    the closure of [requestAndResponse]. *)
Inductive reqcb :=
| CbForget (k : continuation)
| CbResponse (responseLength : nat) (done : donecb).

(** Objects are compared by reference ([indexOf]); [rid] and [hid] stand for
    the reference. *)
Record pendingRequest := mkRequest {
  rid : nat;
  frame : list Z;
  callback : reqcb
}.

Record responseHandler := mkHandler {
  hid : nat;
  responseLength : nat;
  done : donecb
}.

(** Which of the two [requestQueue.shift()] removed a request. *)
Inductive removal :=
| ByComplete
| ByWriteError.

Record master := mkMaster {
  (* the object's fields *)
  isOpen : bool;                          (* serialPort.isOpen *)
  requestQueue : list pendingRequest;
  responseHandlers : list responseHandler;
  responseBuffer : list Z;
  (* the environment: writes whose callback the port still owes, armed timers *)
  writing : list pendingRequest;
  timers : list responseHandler;
  (* what an observer sees: writes handed to the port, settled promises *)
  written : list pendingRequest;
  outcomes : list (nat * result);
  (* history, read by no operation: requests pushed, requests shifted *)
  enqueued : list pendingRequest;
  shifted : list (nat * removal);
  (* allocation of references *)
  nextRequest : nat;
  nextHandler : nat;
  nextOp : nat
}.

Definition init (open : bool) : master :=
  mkMaster open [] [] [] [] [] [] [] [] [] 0 0 0.

Definition set_isOpen (b : bool) (s : master) : master :=
  mkMaster b (requestQueue s) (responseHandlers s) (responseBuffer s)
    (writing s) (timers s) (written s) (outcomes s) (enqueued s) (shifted s)
    (nextRequest s) (nextHandler s) (nextOp s).

Definition set_requestQueue (q : list pendingRequest) (s : master) : master :=
  mkMaster (isOpen s) q (responseHandlers s) (responseBuffer s)
    (writing s) (timers s) (written s) (outcomes s) (enqueued s) (shifted s)
    (nextRequest s) (nextHandler s) (nextOp s).

Definition set_responseHandlers (hs : list responseHandler) (s : master) : master :=
  mkMaster (isOpen s) (requestQueue s) hs (responseBuffer s)
    (writing s) (timers s) (written s) (outcomes s) (enqueued s) (shifted s)
    (nextRequest s) (nextHandler s) (nextOp s).

Definition set_responseBuffer (b : list Z) (s : master) : master :=
  mkMaster (isOpen s) (requestQueue s) (responseHandlers s) b
    (writing s) (timers s) (written s) (outcomes s) (enqueued s) (shifted s)
    (nextRequest s) (nextHandler s) (nextOp s).

Definition set_writing (w : list pendingRequest) (s : master) : master :=
  mkMaster (isOpen s) (requestQueue s) (responseHandlers s) (responseBuffer s)
    w (timers s) (written s) (outcomes s) (enqueued s) (shifted s)
    (nextRequest s) (nextHandler s) (nextOp s).

Definition set_timers (t : list responseHandler) (s : master) : master :=
  mkMaster (isOpen s) (requestQueue s) (responseHandlers s) (responseBuffer s)
    (writing s) t (written s) (outcomes s) (enqueued s) (shifted s)
    (nextRequest s) (nextHandler s) (nextOp s).

Definition log_written (r : pendingRequest) (s : master) : master :=
  mkMaster (isOpen s) (requestQueue s) (responseHandlers s) (responseBuffer s)
    (writing s) (timers s) (written s ++ [r]) (outcomes s) (enqueued s) (shifted s)
    (nextRequest s) (nextHandler s) (nextOp s).

Definition log_outcome (op : nat) (r : result) (s : master) : master :=
  mkMaster (isOpen s) (requestQueue s) (responseHandlers s) (responseBuffer s)
    (writing s) (timers s) (written s) (outcomes s ++ [(op, r)]) (enqueued s)
    (shifted s) (nextRequest s) (nextHandler s) (nextOp s).

Definition log_enqueued (r : pendingRequest) (s : master) : master :=
  mkMaster (isOpen s) (requestQueue s) (responseHandlers s) (responseBuffer s)
    (writing s) (timers s) (written s) (outcomes s) (enqueued s ++ [r])
    (shifted s) (S (nextRequest s)) (nextHandler s) (nextOp s).

Definition log_shifted (r : pendingRequest) (how : removal) (s : master) : master :=
  mkMaster (isOpen s) (requestQueue s) (responseHandlers s) (responseBuffer s)
    (writing s) (timers s) (written s) (outcomes s) (enqueued s)
    (shifted s ++ [(rid r, how)]) (nextRequest s) (nextHandler s) (nextOp s).

Definition bump_nextHandler (s : master) : master :=
  mkMaster (isOpen s) (requestQueue s) (responseHandlers s) (responseBuffer s)
    (writing s) (timers s) (written s) (outcomes s) (enqueued s) (shifted s)
    (nextRequest s) (S (nextHandler s)) (nextOp s).

Definition bump_nextOp (s : master) : master :=
  mkMaster (isOpen s) (requestQueue s) (responseHandlers s) (responseBuffer s)
    (writing s) (timers s) (written s) (outcomes s) (enqueued s) (shifted s)
    (nextRequest s) (nextHandler s) (S (nextOp s)).

(** ** Request queue *)

(** [serialPort.write(request.frame, null, cb)]: the port takes the frame and
    owes the callback. *)
Definition serialPort_write (r : pendingRequest) (s : master) : master :=
  log_written r (set_writing (writing s ++ [r]) s).

Definition writeNextRequest (s : master) : master :=
  match requestQueue s with
  | [] => s
  | r :: _ => serialPort_write r s
  end.

(** [this.requestQueue.shift()] *)
Definition shift_request (how : removal) (s : master) : master :=
  match requestQueue s with
  | [] => s
  | r :: q => log_shifted r how (set_requestQueue q s)
  end.

(** The continuation [writeNextRequest] hands to a request's callback once
    the write succeeded. *)
Definition complete (s : master) : master :=
  let s1 := shift_request ByComplete s in
  match requestQueue s1 with
  | [] => s1
  | _ :: _ => writeNextRequest s1
  end.

(** [request(requestFrame, done)].  With the port closed [done] is called at
    once with the error and nothing else happens: that is the result
    [inl err], and the caller does what its callback does with an error. *)
Definition request (requestFrame : list Z) (cb : reqcb) (s : master)
  : error + master :=
  if negb (isOpen s) then inl SerialPortClosed
  else
    let r := mkRequest (nextRequest s) requestFrame cb in
    let s1 := log_enqueued r (set_requestQueue (requestQueue s ++ [r]) s) in
    if (length (requestQueue s1) =? 1)%nat then inr (writeNextRequest s1)
    else inr s1.

Definition requestAndForget (requestFrame : list Z) (k : continuation)
  : master -> error + master :=
  request requestFrame (CbForget k).

Definition requestAndResponse (requestFrame : list Z) (responseLength : nat)
    (done : donecb) : master -> error + master :=
  request requestFrame (CbResponse responseLength done).

(** ** Control API: the parts that run before a promise settles *)

(** [getPosition]: [inl err] when its promise is rejected within the call. *)
Definition getPosition (device channel : Z) (k : continuation)
  : master -> error + master :=
  requestAndResponse (getPositionFrame device channel) 2 (DoneGetPosition k).

(** [result[channel] = v]; [getPosition] resolves with numbers only. *)
Definition store_position (channel : Z) (v : jsval) (positions : gmap Z Z)
  : gmap Z Z :=
  match v with
  | VNum p => <[channel := p]> positions
  | _ => positions
  end.

(** The loop of [getMultiplePositions] from the channels still to read up to
    its next suspension: [inl r] when the promise settles right there
    (nothing left to read, or [getPosition] rejected within the call and the
    [catch] wraps its error), [inr s'] when it waits for the position of the
    first channel. *)
Definition getMultiplePositions_from (device : Z) (channels : list Z)
    (positions : gmap Z Z) (k : continuation) (s : master) : result + master :=
  match channels with
  | [] => inl (Resolved (VPositions positions))
  | channel :: rest =>
      match getPosition device channel
              (KAwaitPosition device channel rest positions k) s with
      | inl err => inl (Rejected (GetPositionFailed device channel err))
      | inr s' => inr s'
      end
  end.

(** [actualTargets[channel]]; reading a property of [undefined] throws. *)
Definition js_get (obj key : jsval) : option jsval :=
  match obj with
  | VPositions m => Some (positions_get m key)
  | VNum _ => Some VUndef
  | VUndef => None
  end.

(** The [forEach] of [trySetMultipleTargets]: the first element that throws
    ends it. *)
Fixpoint checkTargets (device : Z) (actualTargets : jsval)
    (targets : list target_arg) : option error :=
  match targets with
  | [] => None
  | t :: ts =>
      let channel := prop_channel t in
      let target := prop_target t in
      match js_get actualTargets channel with
      | None => Some JsTypeError
      | Some actualTarget =>
          if strict_neq actualTarget target
          then Some (TargetMismatch device channel target actualTarget)
          else checkTargets device actualTargets ts
      end
  end.

(** ** Settling a promise

    [settle k r s] runs what is attached to a promise that settles with [r].
    The reactions of a promise run after the code that settled it has
    returned; that code touches the response buffer and the handler list
    only, the reactions touch neither, so running them at the point of
    settlement yields the same state. *)
Fixpoint settle (k : continuation) (r : result) (s : master) {struct k} : master :=
  match k with
  | KPromise op => log_outcome op r s
  | KThenGetPosition device channel k' =>
      (* .then(() => this.getPosition(options)) *)
      match r with
      | Resolved _ =>
          match getPosition device channel k' s with
          | inl err => settle k' (Rejected err) s
          | inr s' => s'
          end
      | Rejected _ => settle k' r s
      end
  | KThenCheckTarget device channel target k' =>
      (* .then((actualTarget) => { if (actualTarget !== options.target) throw ... }) *)
      match r with
      | Resolved actualTarget =>
          if strict_neq actualTarget (VNum target)
          then settle k' (Rejected (TargetMismatch device (VNum channel)
                                      (VNum target) actualTarget)) s
          else settle k' (Resolved VUndef) s
      | Rejected _ => settle k' r s
      end
  | KAwaitPosition device channel rest positions k' =>
      (* result[channel] = await this.getPosition({device, channel}) *)
      match r with
      | Resolved v =>
          match getMultiplePositions_from device rest
                  (store_position channel v positions) k' s with
          | inl r' => settle k' r' s
          | inr s' => s'
          end
      | Rejected err => settle k' (Rejected (GetPositionFailed device channel err)) s
      end
  | KThenGetMultiplePositions device channels k' =>
      (* .then(() => this.getMultiplePositions({device: options.device, channels})) *)
      match r with
      | Resolved _ =>
          match getMultiplePositions_from device channels ∅ k' s with
          | inl r' => settle k' r' s
          | inr s' => s'
          end
      | Rejected _ => settle k' r s
      end
  | KThenCheckTargets device targets k' =>
      (* .then((actualTargets) => { options.targets.forEach(...) }) *)
      match r with
      | Resolved actualTargets =>
          match checkTargets device actualTargets targets with
          | Some err => settle k' (Rejected err) s
          | None => settle k' (Resolved VUndef) s
          end
      | Rejected _ => settle k' r s
      end
  end.

(** ** Control API *)

Definition reject_with (k : continuation) (x : error + master) (s : master)
  : master :=
  match x with
  | inl err => settle k (Rejected err) s
  | inr s' => s'
  end.

Definition setTarget (device channel target : Z) (k : continuation)
    (s : master) : master :=
  reject_with k (requestAndForget (setTargetFrame device channel target) k s) s.

Definition trySetTarget (device channel target : Z) (k : continuation)
  : master -> master :=
  setTarget device channel target
    (KThenGetPosition device channel (KThenCheckTarget device channel target k)).

Definition setMultipleTargets (device channel : Z) (targets : list target_arg)
    (k : continuation) (s : master) : master :=
  reject_with k
    (requestAndForget (setMultipleTargetsFrame device channel targets) k s) s.

Definition trySetMultipleTargets (device channel : Z)
    (targets : list target_arg) (k : continuation) : master -> master :=
  let channels := imap (fun i _ => channel + Z.of_nat i) targets in
  setMultipleTargets device channel targets
    (KThenGetMultiplePositions device channels (KThenCheckTargets device targets k)).

(** The loop of [getMultiplePositions], entered with the channels still to
    read and the object built so far. *)
Definition getMultiplePositions_loop (device : Z) (channels : list Z)
    (positions : gmap Z Z) (k : continuation) (s : master) : master :=
  match getMultiplePositions_from device channels positions k s with
  | inl r => settle k r s
  | inr s' => s'
  end.

Definition getMultiplePositions (device : Z) (channels : list Z)
  : continuation -> master -> master :=
  getMultiplePositions_loop device channels ∅.

(** ** Response correlator *)

(** The [done] closure of [getPosition], called with an error or with the
    response frame. *)
Definition invokeDone (d : donecb) (r : error + list Z) (s : master) : master :=
  match d with
  | DoneGetPosition k =>
      match r with
      | inl err => settle k (Rejected err) s
      | inr responseFrame =>
          settle k (Resolved (VNum (decodePosition responseFrame))) s
      end
  end.

(** [responseHandler.callback]: [complete(); done(err, responseFrame)]. *)
Definition handlerCallback (h : responseHandler) (r : error + list Z)
    (s : master) : master :=
  invokeDone (done h) r (complete s).

(** A request's callback, called by [writeNextRequest] with the write error
    or with the continuation [complete]. *)
Definition requestCallback (cb : reqcb) (err : option error) (s : master)
  : master :=
  match cb with
  | CbForget k =>
      match err with
      | Some e => settle k (Rejected e) s
      | None => settle k (Resolved VUndef) (complete s)
      end
  | CbResponse len d =>
      match err with
      | Some e => invokeDone d (inl e) s
      | None =>
          let h := mkHandler (nextHandler s) len d in
          let s1 := set_timers (timers s ++ [h]) (bump_nextHandler s) in
          set_responseHandlers (responseHandlers s1 ++ [h]) s1
      end
  end.

(** The callback [writeNextRequest] gives to [serialPort.write], closed over
    the request it wrote. *)
Definition writeCallback (r : pendingRequest) (err : option error) (s : master)
  : master :=
  match err with
  | Some e => requestCallback (callback r) (Some e) (shift_request ByWriteError s)
  | None => requestCallback (callback r) None s
  end.

(** [this.responseHandlers.indexOf(responseHandler)], -1 when absent. *)
Fixpoint indexOf (h : responseHandler) (l : list responseHandler) : Z :=
  match l with
  | [] => -1
  | x :: l' =>
      if (hid x =? hid h)%nat then 0
      else let i := indexOf h l' in if i <? 0 then -1 else i + 1
  end.

(** [array.splice(i, 1)]: a negative start counts from the end. *)
Definition splice1 {A} (i : Z) (l : list A) : list A :=
  let len := Z.of_nat (length l) in
  let start := Z.to_nat (if i <? 0 then Z.max (len + i) 0 else Z.min i len) in
  take start l ++ drop (S start) l.

(** [clearTimeout(responseHandler.timeout)]; a timer that fires is disarmed
    the same way. *)
Definition clearTimeout (h : responseHandler) (s : master) : master :=
  set_timers (List.filter (fun t => negb (hid t =? hid h)%nat) (timers s)) s.

(** The function given to [setTimeout]. *)
Definition onTimeout (h : responseHandler) (s : master) : master :=
  let i := indexOf h (responseHandlers s) in
  let s1 := set_responseHandlers (splice1 i (responseHandlers s)) s in
  handlerCallback h (inl ResponseTimeout) s1.

(** [onSerialPortData(data)].  The response buffer is a [BufferQueueReader]
    of the h5.buffers package: [push] appends, [shiftBuffer(n)] removes and
    returns the first [n] bytes, [skip()] drops all that is buffered. *)
Definition onSerialPortData (data : list Z) (s : master) : master :=
  match responseHandlers s with
  | [] => s
  | responseHandler :: rest =>
      let s1 := set_responseBuffer (responseBuffer s ++ data) s in
      if (length (responseBuffer s1) <? responseLength responseHandler)%nat
      then s1
      else
        let s2 := clearTimeout responseHandler (set_responseHandlers rest s1) in
        let responseFrame :=
          take (responseLength responseHandler) (responseBuffer s2) in
        let s3 :=
          set_responseBuffer
            (drop (responseLength responseHandler) (responseBuffer s2)) s2 in
        let s4 := handlerCallback responseHandler (inr responseFrame) s3 in
        match responseBuffer s4, responseHandlers s4 with
        | _ :: _, [] => set_responseBuffer [] s4
        | _, _ => s4
        end
  end.

(** ** Events *)

Inductive api_call :=
| SetTarget (device channel target : Z)
| TrySetTarget (device channel target : Z)
| SetMultipleTargets (device channel : Z) (targets : list target_arg)
| TrySetMultipleTargets (device channel : Z) (targets : list target_arg)
| GetPosition (device channel : Z)
| GetMultiplePositions (device : Z) (channels : list Z).

Definition call (c : api_call) (k : continuation) (s : master) : master :=
  match c with
  | SetTarget device channel target => setTarget device channel target k s
  | TrySetTarget device channel target => trySetTarget device channel target k s
  | SetMultipleTargets device channel targets =>
      setMultipleTargets device channel targets k s
  | TrySetMultipleTargets device channel targets =>
      trySetMultipleTargets device channel targets k s
  | GetPosition device channel =>
      reject_with k (getPosition device channel k s) s
  | GetMultiplePositions device channels =>
      getMultiplePositions device channels k s
  end.

(** What the engine reacts to: a caller invoking an operation, the port
    calling back the oldest write it owes (with an error or without), the
    port delivering data, a timer firing, the port opening or closing. *)
Inductive event :=
| Call (c : api_call)
| WriteDone (err : option nat)
| Data (data : list Z)
| Timeout (h : nat)
| PortOpen
| PortClose.

Definition find_timer (n : nat) (s : master) : option responseHandler :=
  List.find (fun t => (hid t =? n)%nat) (timers s).

(** One reaction; [None] when the event cannot happen in [s] (no write is
    owed, no such timer is armed). *)
Definition step (s : master) (e : event) : option master :=
  match e with
  | Call c => Some (call c (KPromise (nextOp s)) (bump_nextOp s))
  | WriteDone err =>
      match writing s with
      | [] => None
      | r :: w => Some (writeCallback r (WriteError <$> err) (set_writing w s))
      end
  | Data data => Some (onSerialPortData data s)
  | Timeout n =>
      match find_timer n s with
      | None => None
      | Some h => Some (onTimeout h (clearTimeout h s))
      end
  | PortOpen => Some (set_isOpen true s)
  | PortClose => Some (set_isOpen false s)
  end.

Fixpoint run (s : master) (tr : list event) : option master :=
  match tr with
  | [] => Some s
  | e :: tr' =>
      match step s e with
      | None => None
      | Some s' => run s' tr'
      end
  end.

Definition frames (l : list pendingRequest) : list (list Z) := map frame l.

(** ** Notions used in the statements *)

(** The promise a continuation ends in, and the error it is rejected with
    when the promise in front of it is rejected with [e]: rejections pass
    through the [then] callbacks untouched and are wrapped by the [catch] of
    [getMultiplePositions]. *)
Fixpoint promise_of (k : continuation) : nat :=
  match k with
  | KPromise op => op
  | KThenGetPosition _ _ k'
  | KThenCheckTarget _ _ _ k'
  | KAwaitPosition _ _ _ _ k'
  | KThenGetMultiplePositions _ _ k'
  | KThenCheckTargets _ _ k' => promise_of k'
  end.

Fixpoint rejection (k : continuation) (e : error) : error :=
  match k with
  | KPromise _ => e
  | KAwaitPosition device channel _ _ k' =>
      rejection k' (GetPositionFailed device channel e)
  | KThenGetPosition _ _ k'
  | KThenCheckTarget _ _ _ k'
  | KThenGetMultiplePositions _ _ k'
  | KThenCheckTargets _ _ k' => rejection k' e
  end.

(** A write is owed by the port or a response is awaited. *)
Definition busy (s : master) : bool :=
  match writing s, responseHandlers s with
  | [], [] => false
  | _, _ => true
  end.

(** The invariant of the engine.  The queue is what was pushed minus what
    was shifted; the port was handed exactly the requests that left the
    queue, plus its head while the engine is busy with it. *)
Record Inv (s : master) : Prop := mkInv {
  inv_queue : requestQueue s = drop (length (shifted s)) (enqueued s);
  inv_written :
    written s =
    take (length (shifted s) + (if busy s then 1 else 0)) (enqueued s);
  inv_one : (length (writing s) + length (responseHandlers s) <= 1)%nat;
  inv_busy : busy s = true -> requestQueue s <> [];
  inv_writing : forall r, r ∈ writing s -> head (requestQueue s) = Some r;
  inv_timers : timers s = responseHandlers s;
  inv_shifted :
    map fst (shifted s) = map rid (take (length (shifted s)) (enqueued s));
  inv_rids : map rid (enqueued s) = seq 0 (nextRequest s)
}.

(** The state inside a reaction, between the moment the port or the
    correlator is done with the head request and the call of its callback:
    the head has been written, nothing is owed or awaited. *)
Record Mid (s : master) : Prop := mkMid {
  mid_queue : requestQueue s = drop (length (shifted s)) (enqueued s);
  mid_head : requestQueue s <> [];
  mid_written : written s = take (S (length (shifted s))) (enqueued s);
  mid_writing : writing s = [];
  mid_handlers : responseHandlers s = [];
  mid_timers : timers s = [];
  mid_shifted :
    map fst (shifted s) = map rid (take (length (shifted s)) (enqueued s));
  mid_rids : map rid (enqueued s) = seq 0 (nextRequest s)
}.

(** An open engine with nothing queued, owed, awaited or buffered. *)
Record Quiet (s : master) : Prop := mkQuiet {
  quiet_open : isOpen s = true;
  quiet_queue : requestQueue s = [];
  quiet_handlers : responseHandlers s = [];
  quiet_buffer : responseBuffer s = [];
  quiet_writing : writing s = [];
  quiet_timers : timers s = []
}.

(** The queue is stuck: requests wait, yet no write is owed and no response
    is awaited, so nothing will ever call [complete]. *)
Record Stalled (s : master) : Prop := mkStalled {
  stalled_queue : requestQueue s <> [];
  stalled_writing : writing s = [];
  stalled_handlers : responseHandlers s = [];
  stalled_timers : timers s = []
}.

(** The two bytes a device sends for position [p], low byte first. *)
Definition positionBytes (p : Z) : list Z := [Z.land p 0xFF; Z.shiftr p 8].

(** The events of a read that succeeds with position [p]: the write
    completes, then the two bytes arrive. *)
Definition readOk (p : Z) : list event :=
  [WriteDone None; Data (positionBytes p)].

(** The object [getMultiplePositions] has built after reading [positions]
    for [channels], in that order. *)
Fixpoint collect (positions : gmap Z Z) (channels ps : list Z) : gmap Z Z :=
  match channels, ps with
  | c :: channels', p :: ps' => collect (<[c := p]> positions) channels' ps'
  | _, _ => positions
  end.

(** The quiet state an engine is in after the request [r], issued in the
    quiet state [s], has been written, answered and completed. *)
Definition served (r : pendingRequest) (s : master) : master :=
  mkMaster (isOpen s) [] [] [] [] []
    (written s ++ [r]) (outcomes s) (enqueued s ++ [r])
    (shifted s ++ [(rid r, ByComplete)])
    (S (nextRequest s)) (S (nextHandler s)) (nextOp s).

(** The request [getMultiplePositions] issues for [channel], with [rest]
    still to read and [positions] read so far. *)
Definition positionRequest (device channel : Z) (rest : list Z)
    (positions : gmap Z Z) (k : continuation) (s : master) : pendingRequest :=
  mkRequest (nextRequest s) (getPositionFrame device channel)
    (CbResponse 2 (DoneGetPosition (KAwaitPosition device channel rest positions k))).

(** The state after the reads of [channels], one after the other, answered
    with [ps]; [tail] are the channels behind them. *)
Fixpoint serve_reads (device : Z) (k : continuation) (positions : gmap Z Z)
    (channels ps tail : list Z) (s : master) : master :=
  match channels, ps with
  | c :: channels', p :: ps' =>
      serve_reads device k (<[c := p]> positions) channels' ps' tail
        (served (positionRequest device c (channels' ++ tail) positions k s) s)
  | _, _ => s
  end.

(** The operations made of a single request, and the frame of that request. *)
Definition frame_of_call (c : api_call) : option (list Z) :=
  match c with
  | SetTarget device channel target => Some (setTargetFrame device channel target)
  | SetMultipleTargets device channel targets =>
      Some (setMultipleTargetsFrame device channel targets)
  | GetPosition device channel => Some (getPositionFrame device channel)
  | _ => None
  end.

(** The frames of the single-request operations issued in a run, in the
    order of the calls. *)
Fixpoint issued (tr : list event) : list (list Z) :=
  match tr with
  | [] => []
  | Call c :: tr' =>
      match frame_of_call c with
      | Some fr => fr :: issued tr'
      | None => issued tr'
      end
  | _ :: tr' => issued tr'
  end.

(** Runs in which every operation issued is made of a single request and
    the port stays open. *)
Definition single_request (e : event) : bool :=
  match e with
  | Call c => match frame_of_call c with Some _ => true | None => false end
  | PortClose => false
  | _ => true
  end.

(** Callbacks that settle the caller's promise directly. *)
Definition plain_done (d : donecb) : Prop :=
  match d with
  | DoneGetPosition (KPromise _) => True
  | _ => False
  end.

Definition plain_cb (cb : reqcb) : Prop :=
  match cb with
  | CbForget (KPromise _) => True
  | CbResponse _ d => plain_done d
  | _ => False
  end.

Record Plain (s : master) : Prop := mkPlain {
  plain_open : isOpen s = true;
  plain_queue : Forall (fun r => plain_cb (callback r)) (requestQueue s);
  plain_writing : Forall (fun r => plain_cb (callback r)) (writing s);
  plain_handlers : Forall (fun h => plain_done (done h)) (responseHandlers s);
  plain_timers : Forall (fun h => plain_done (done h)) (timers s)
}.

(** The state an engine created on an open port reaches by a run; used for
    concrete scenarios. *)
Definition after (tr : list event) : master :=
  match run (init true) tr with
  | Some s => s
  | None => init true
  end.

(** [setMultipleTargets] filling the buffer it got from [Buffer.allocUnsafe],
    whatever that buffer holds. *)
Definition fillMultipleTargetsFrame (requestFrame : list Z) (device channel : Z)
    (targets : list target_arg) : list Z :=
  let frame1 :=
    <[4%nat := JS.uint8 channel]>
      (<[3%nat := JS.uint8 (Z.of_nat (length targets))]>
         (<[2%nat := JS.uint8 0x1F]>
            (<[1%nat := JS.uint8 device]>
               (<[0%nat := JS.uint8 0xAA]> requestFrame)))) in
  writeTargets frame1 0 targets.

(** The two payload bytes of one target. *)
Definition targetBytes (target : target_arg) : list Z :=
  [JS.uint8 (targetLow (target_int32 target));
   JS.uint8 (targetHigh (target_int32 target))].

(** The operations that expect no response, and their frame. *)
Definition forget_frame (c : api_call) : option (list Z) :=
  match c with
  | SetTarget device channel target => Some (setTargetFrame device channel target)
  | SetMultipleTargets device channel targets =>
      Some (setMultipleTargetsFrame device channel targets)
  | _ => None
  end.

(** The quiet state an engine is in after the request [r], which expects no
    response and was issued in the quiet state [s], has been written and
    completed. *)
Definition forgotten (r : pendingRequest) (s : master) : master :=
  mkMaster (isOpen s) [] [] [] [] []
    (written s ++ [r]) (outcomes s) (enqueued s ++ [r])
    (shifted s ++ [(rid r, ByComplete)])
    (S (nextRequest s)) (nextHandler s) (nextOp s).

(** The quiet state an engine is in after the write of the request [r],
    issued in the quiet state [s], has failed. *)
Definition write_failed (r : pendingRequest) (s : master) : master :=
  mkMaster (isOpen s) [] [] [] [] []
    (written s ++ [r]) (outcomes s) (enqueued s ++ [r])
    (shifted s ++ [(rid r, ByWriteError)])
    (S (nextRequest s)) (nextHandler s) (nextOp s).

(** The state after the request [r], the only one in flight in [s], has been
    written, has had its handler served or timed out, and was completed. *)
Definition answered (r : pendingRequest) (s : master) : master :=
  mkMaster (isOpen s) [] [] [] [] []
    (written s) (outcomes s) (enqueued s)
    (shifted s ++ [(rid r, ByComplete)])
    (nextRequest s) (S (nextHandler s)) (nextOp s).

(** A single request is queued and its write is owed; no response is
    awaited. *)
Record InFlight (r : pendingRequest) (s : master) : Prop := mkInFlight {
  inflight_queue : requestQueue s = [r];
  inflight_writing : writing s = [r];
  inflight_handlers : responseHandlers s = [];
  inflight_timers : timers s = []
}.

(** The promise a request's callback settles in the end. *)
Definition cb_promise (cb : reqcb) : nat :=
  match cb with
  | CbForget k => promise_of k
  | CbResponse _ (DoneGetPosition k) => promise_of k
  end.

(** The operations that have a request in the queue, and the operations
    whose promise has settled. *)
Definition pending (s : master) : list nat :=
  map (fun r => cb_promise (callback r)) (requestQueue s).

Definition settled (s : master) : list nat := map fst (outcomes s).

(** Every operation issued is either settled or pending, once; a response
    handler belongs to the request at the head of the queue. *)
Record Ledger (s : master) : Prop := mkLedger {
  ledger_ops : Permutation (settled s ++ pending s) (seq 0 (nextOp s));
  ledger_handlers :
    forall h, h ∈ responseHandlers s ->
      exists r q len, requestQueue s = r :: q /\
                      callback r = CbResponse len (done h)
}.

(** The state inside a reaction while the continuation of operation [op] is
    about to run: [op] is neither settled nor pending. *)
Record LedgerMid (op : nat) (s : master) : Prop := mkLedgerMid {
  ledgermid_ops : Permutation (op :: settled s ++ pending s) (seq 0 (nextOp s));
  ledgermid_handlers :
    forall h, h ∈ responseHandlers s ->
      exists r q len, requestQueue s = r :: q /\
                      callback r = CbResponse len (done h)
}.

(** A frame starts with the sync byte and is made of bytes. *)
Definition wellFormed (fr : list Z) : Prop :=
  head fr = Some 0xAA /\ Forall (fun b => 0 <= b < 256) fr.

(** * Device listing ([lib/list.js])

    [list] runs a system command, parses its output into a list of serial
    devices and groups them by serial number. *)

Module Listing.

(** The [port] of a device: ['cmd'] or ['ttl']. *)
Inductive portName := PortCmd | PortTtl.

#[global] Instance portName_eq_dec : EqDecision portName.
Proof. solve_decision. Defined.

(** A device as pushed by [listWin32] and [listLinux]; [None] is [null]. *)
Record device := mkDevice {
  path : string;
  channels : option Z;
  port : option portName;
  serial : option string
}.

(** An entry of the grouped object.  Besides the four properties of the
    literal it is created with, it gets a property named ["null"] when a
    device whose [port] is [null] is assigned to it. *)
Record entry := mkEntry {
  serialNumber : option string;
  channelCount : option Z;
  cmd : option string;
  ttl : option string;
  null : option string
}.

(** The property key a serial number is converted to. *)
Definition key_of (serial : option string) : string :=
  match serial with
  | Some s => s
  | None => "null"%string
  end.

(** The names [grouped], an object literal, inherits from
    [Object.prototype].  Reading [grouped[name]] for one of them gives a
    function or the prototype itself, and the assignment goes to that
    object: [groupDevices] is followed up to there only. *)
Definition inherited : list string :=
  ["constructor"; "__defineGetter__"; "__defineSetter__"; "hasOwnProperty";
   "__lookupGetter__"; "__lookupSetter__"; "isPrototypeOf";
   "propertyIsEnumerable"; "toString"; "valueOf"; "__proto__";
   "toLocaleString"]%string.

(** [entry[port] = path] *)
Definition assign (p : option portName) (v : string) (e : entry) : entry :=
  match p with
  | Some PortCmd =>
      mkEntry (serialNumber e) (channelCount e) (Some v) (ttl e) (null e)
  | Some PortTtl =>
      mkEntry (serialNumber e) (channelCount e) (cmd e) (Some v) (null e)
  | None =>
      mkEntry (serialNumber e) (channelCount e) (cmd e) (ttl e) (Some v)
  end.

(** [entry[port]] *)
Definition get (p : option portName) (e : entry) : option string :=
  match p with
  | Some PortCmd => cmd e
  | Some PortTtl => ttl e
  | None => null e
  end.

(** The body of the [forEach] of [groupDevices]; [None] when the serial
    number names an inherited property. *)
Definition groupDevice (grouped : gmap string entry) (d : device)
  : option (gmap string entry) :=
  let k := key_of (serial d) in
  if bool_decide (k ∈ inherited) then None
  else
    let e := match grouped !! k with
             | Some e => e
             | None => mkEntry (serial d) (channels d) None None None
             end in
    Some (<[k := assign (port d) (path d) e]> grouped).

Fixpoint groupDevices_from (grouped : gmap string entry)
    (devices : list device) : option (gmap string entry) :=
  match devices with
  | [] => Some grouped
  | d :: rest =>
      match groupDevice grouped d with
      | None => None
      | Some grouped' => groupDevices_from grouped' rest
      end
  end.

(** [groupDevices(devices)].  The grouped object is read by key only, so
    the order of its keys is not kept. *)
Definition groupDevices : list device -> option (gmap string entry) :=
  groupDevices_from ∅.

(** ** [listWin32]

    The callback given to [exec], from the lines [stdout.split] gives.  The
    two regular expressions and [parseInt] are parameters:
    [match_line line] stands for
    [line.trim().match(/^([A-Za-z]+)=(.*?)$/)] and gives the key and the
    value, [match_name value] for
    [value.match(/([0-9]+)-Channel.*?(Command|TTL) Port/)] and gives the two
    groups. *)
Section Win32.

Variable match_line : string -> option (string * string).
Variable match_name : string -> option (string * string).
Variable parseInt : string -> Z.

(** The body of the [forEach] over the lines. *)
Definition win32_line (devices : list device) (line : string) : list device :=
  match match_line line with
  | None => devices
  | Some (key, value) =>
      if bool_decide (key = "DeviceID"%string)
      then devices ++ [mkDevice value None None None]
      else if negb (length devices =? 0)%nat
                && bool_decide (key = "Name"%string)
      then
        match match_name value with
        | Some (m1, m2) =>
            alter (fun device =>
                     mkDevice (path device) (Some (parseInt m1))
                       (Some (if bool_decide (m2 = "Command"%string)
                              then PortCmd else PortTtl))
                       (serial device))
              (length devices - 1)%nat devices
        | None => devices
        end
      else devices
  end.

Definition win32_devices (lines : list string) : list device :=
  fold_left win32_line lines [].

(** What [done] is called with: the error of [exec], or the grouped
    devices. *)
Definition listWin32 {E : Type} (err : option E) (lines : list string)
  : E + option (gmap string entry) :=
  match err with
  | Some e => inl e
  | None => inr (groupDevices (win32_devices lines))
  end.

End Win32.

End Listing.

(** What the devices do, one after the other, to the entry under [k]. *)
Definition entry_after (k : string) (oe : option Listing.entry)
    (d : Listing.device) : option Listing.entry :=
  if bool_decide (Listing.key_of (Listing.serial d) = k)
  then Some (Listing.assign (Listing.port d) (Listing.path d)
               match oe with
               | Some e => e
               | None => Listing.mkEntry (Listing.serial d) (Listing.channels d)
                           None None None
               end)
  else oe.

(** The devices that set [entry[p]] of the entry under [k]. *)
Definition assigns (k : string) (p : option Listing.portName)
    (d : Listing.device) : bool :=
  bool_decide (Listing.key_of (Listing.serial d) = k /\ Listing.port d = p).

(** * Properties *)

(** ** Codec arithmetic *)

Lemma to_int32_small (z : Z) : -2 ^ 31 <= z < 2 ^ 31 -> JS.to_int32 z = z.
Proof.
  intros Hz. unfold JS.to_int32.
  destruct (Z_lt_ge_dec z 0) as [Hneg|Hpos].
  - replace (z mod 2 ^ 32) with (z + 2 ^ 32).
    + destruct (Z.ltb_spec (z + 2 ^ 32) (2 ^ 31)); lia.
    + apply Z.mod_unique with (q := -1); lia.
  - rewrite Z.mod_small by lia.
    destruct (Z.ltb_spec z (2 ^ 31)); lia.
Qed.

Lemma land_255 (p : Z) : Z.land p 0xFF = p mod 256.
Proof. change 0xFF with (Z.ones 8). now rewrite Z.land_ones by lia. Qed.

Lemma land_65535 (p : Z) : Z.land p 0xFFFF = p mod 65536.
Proof. change 0xFFFF with (Z.ones 16). now rewrite Z.land_ones by lia. Qed.

Lemma shiftr_8 (p : Z) : Z.shiftr p 8 = p / 256.
Proof. now rewrite Z.shiftr_div_pow2 by lia. Qed.

Lemma decodePosition_bytes (lo hi : Z) :
  0 <= lo < 256 -> 0 <= hi < 256 -> decodePosition [lo; hi] = hi * 256 + lo.
Proof.
  intros Hlo Hhi. unfold decodePosition, JS.and, JS.shl. simpl nth.
  change (8 mod 32) with 8.
  rewrite (to_int32_small hi) by lia.
  rewrite Z.shiftl_mul_pow2 by lia. change (2 ^ 8) with 256.
  rewrite (to_int32_small (hi * 256)) by lia.
  rewrite (to_int32_small (hi * 256 + lo)) by lia.
  rewrite (to_int32_small 65535) by lia.
  rewrite land_65535. apply Z.mod_small. lia.
Qed.

Lemma decodePosition_positionBytes (p : Z) :
  0 <= p <= 65535 -> decodePosition (positionBytes p) = p.
Proof.
  intros Hp. unfold positionBytes. rewrite land_255, shiftr_8.
  rewrite decodePosition_bytes.
  - pose proof (Z.div_mod p 256). lia.
  - apply Z.mod_pos_bound. lia.
  - split; [apply Z.div_pos; lia | apply Z.div_lt_upper_bound; lia].
Qed.

(** ** What settling a promise can do *)

(** A rejection runs down to the caller's promise and changes nothing else. *)
Lemma settle_rejected (k : continuation) (e : error) (s : master) :
  settle k (Rejected e) s = log_outcome (promise_of k) (Rejected (rejection k e)) s.
Proof.
  revert e. induction k; intros e; simpl; auto.
Qed.

(** Settling a promise either settles the caller's promise or issues one
    request through an open port. *)
Lemma settle_cases (k : continuation) (r : result) (s : master) :
  (exists r', settle k r s = log_outcome (promise_of k) r' s) \/
  (exists fr cb, request fr cb s = inr (settle k r s)).
Proof.
  revert r. induction k; intros r; simpl.
  - left. eauto.
  - destruct r as [v|e]; [|apply IHk].
    unfold getPosition, requestAndResponse.
    destruct (request _ _ s) eqn:Hreq; [apply IHk|].
    right. eauto.
  - destruct r as [v|e]; [|apply IHk].
    destruct (strict_neq _ _); apply IHk.
  - destruct r as [v|e]; [|apply IHk].
    destruct rest as [|c rest']; simpl; [apply IHk|].
    unfold getPosition, requestAndResponse.
    destruct (request _ _ s) eqn:Hreq; [apply IHk|].
    right. eauto.
  - destruct r as [v|e]; [|apply IHk].
    destruct channels as [|c rest']; simpl; [apply IHk|].
    unfold getPosition, requestAndResponse.
    destruct (request _ _ s) eqn:Hreq; [apply IHk|].
    right. eauto.
  - destruct r as [v|e]; [|apply IHk].
    destruct (checkTargets _ _ _); apply IHk.
Qed.

(** The fields [request] leaves alone. *)
Lemma request_keeps fr cb s s' :
  request fr cb s = inr s' ->
  isOpen s = true /\ isOpen s' = true /\
  responseHandlers s' = responseHandlers s /\
  responseBuffer s' = responseBuffer s /\
  timers s' = timers s /\
  outcomes s' = outcomes s /\
  shifted s' = shifted s /\
  nextHandler s' = nextHandler s /\
  nextOp s' = nextOp s.
Proof.
  unfold request. destruct (isOpen s) eqn:Hopen; simpl; [|discriminate].
  destruct (_ =? _)%nat; intros [= <-]; unfold writeNextRequest; simpl;
    try (destruct (requestQueue s ++ _); simpl); rewrite ?Hopen; tauto.
Qed.

(** With a request already queued, [request] only appends. *)
Lemma request_behind fr cb s s' :
  requestQueue s <> [] -> request fr cb s = inr s' ->
  requestQueue s' = requestQueue s ++ [mkRequest (nextRequest s) fr cb] /\
  writing s' = writing s /\ written s' = written s.
Proof.
  intros Hq. unfold request. destruct (isOpen s); simpl; [|discriminate].
  destruct (requestQueue s) as [|r q] eqn:E; [congruence|].
  rewrite length_app. simpl.
  replace (length q + 1 =? 0)%nat with false
    by (symmetry; apply Nat.eqb_neq; lia).
  intros [= <-]. simpl. auto.
Qed.

(** With an empty queue, [request] pushes the request and writes it. *)
Lemma request_idle fr cb s :
  isOpen s = true -> requestQueue s = [] ->
  let r := mkRequest (nextRequest s) fr cb in
  request fr cb s =
  inr (serialPort_write r
         (log_enqueued r (set_requestQueue [r] s))).
Proof.
  intros Hopen Hq. unfold request. rewrite Hopen. simpl. rewrite Hq. simpl.
  unfold writeNextRequest. simpl. reflexivity.
Qed.

Lemma settle_keeps k r s :
  isOpen (settle k r s) = isOpen s /\
  responseHandlers (settle k r s) = responseHandlers s /\
  responseBuffer (settle k r s) = responseBuffer s /\
  timers (settle k r s) = timers s /\
  shifted (settle k r s) = shifted s /\
  nextHandler (settle k r s) = nextHandler s.
Proof.
  destruct (settle_cases k r s) as [[r' ->]|(fr & cb & Hreq)].
  - simpl. tauto.
  - apply request_keeps in Hreq. intuition congruence.
Qed.

Lemma complete_keeps s :
  isOpen (complete s) = isOpen s /\
  responseHandlers (complete s) = responseHandlers s /\
  responseBuffer (complete s) = responseBuffer s /\
  timers (complete s) = timers s /\
  outcomes (complete s) = outcomes s.
Proof.
  unfold complete, shift_request, writeNextRequest.
  destruct (requestQueue s) as [|r [|r' q]] eqn:E; simpl; rewrite ?E; simpl; tauto.
Qed.

Lemma handlerCallback_keeps h x s :
  responseHandlers (handlerCallback h x s) = responseHandlers s /\
  responseBuffer (handlerCallback h x s) = responseBuffer s /\
  timers (handlerCallback h x s) = timers s.
Proof.
  unfold handlerCallback, invokeDone.
  destruct (done h) as [k].
  destruct (complete_keeps s) as (_ & Hh & Hb & Ht & _).
  destruct x as [e|fr];
    match goal with
    | |- context [settle ?k ?r ?s0] =>
        destruct (settle_keeps k r s0) as (_ & -> & -> & -> & _)
    end; auto.
Qed.

(** ** The invariant *)

Lemma shifted_le_enqueued {A B} (f : A -> nat) (g : B -> nat)
    (sh : list A) (enq : list B) :
  map f sh = map g (take (length sh) enq) -> (length sh <= length enq)%nat.
Proof.
  intros H. apply (f_equal length) in H.
  rewrite !length_map, length_take in H. lia.
Qed.

Lemma busy_false s :
  busy s = false -> writing s = [] /\ responseHandlers s = [].
Proof.
  unfold busy. destruct (writing s), (responseHandlers s); intros; auto; discriminate.
Qed.

Lemma Inv_init open : Inv (init open).
Proof.
  constructor; simpl; auto; try discriminate.
  intros r Hr. inversion Hr.
Qed.

Lemma Inv_log_outcome op r s : Inv s -> Inv (log_outcome op r s).
Proof. intros []; constructor; auto. Qed.

Lemma Inv_bump_nextOp s : Inv s -> Inv (bump_nextOp s).
Proof. intros []; constructor; auto. Qed.

Lemma Inv_set_isOpen b s : Inv s -> Inv (set_isOpen b s).
Proof. intros []; constructor; auto. Qed.

Lemma Inv_set_responseBuffer b s : Inv s -> Inv (set_responseBuffer b s).
Proof. intros []; constructor; auto. Qed.

Lemma Inv_request fr cb s s' : Inv s -> request fr cb s = inr s' -> Inv s'.
Proof.
  intros HI Hreq.
  pose proof (shifted_le_enqueued _ _ _ _ (inv_shifted s HI)) as Hle.
  destruct (requestQueue s) as [|r0 q] eqn:Hq.
  - (* nothing queued: the request is pushed and written *)
    assert (Hidle : busy s = false).
    { destruct (busy s) eqn:Hb; [|reflexivity].
      exfalso. now apply (inv_busy s HI). }
    destruct (busy_false s Hidle) as [Hw Hh].
    assert (Hn : length (shifted s) = length (enqueued s)).
    { pose proof (inv_queue s HI) as Hd. rewrite Hq in Hd.
      apply (f_equal length) in Hd. rewrite length_drop in Hd. simpl in Hd. lia. }
    unfold request in Hreq. destruct (isOpen s); simpl in Hreq; [|discriminate].
    rewrite Hq in Hreq. simpl in Hreq. unfold writeNextRequest in Hreq.
    simpl in Hreq. injection Hreq as <-.
    destruct HI as [Iq Iw I1 Ib Iwr It Ish Ir].
    unfold busy in *. rewrite Hw, Hh in *. simpl in *.
    constructor; unfold busy; simpl; rewrite ?Hw, ?Hh; simpl; auto.
    + now rewrite Hn, drop_app_length.
    + rewrite take_ge by (rewrite length_app; simpl; lia).
      rewrite Iw, Nat.add_0_r, take_ge by lia. reflexivity.
    + intros r Hr. apply list_elem_of_singleton in Hr. now subst.
    + now rewrite take_app_le by lia.
    + change (0%nat :: seq 1 (nextRequest s)) with (seq 0 (S (nextRequest s))).
      rewrite map_app, Ir, seq_S. reflexivity.
  - (* a request is queued already: the new one waits behind it *)
    assert (Hlt : (length (shifted s) < length (enqueued s))%nat).
    { pose proof (inv_queue s HI) as Hd. rewrite Hq in Hd.
      apply (f_equal length) in Hd. rewrite length_drop in Hd. simpl in Hd. lia. }
    unfold request in Hreq. destruct (isOpen s); simpl in Hreq; [|discriminate].
    rewrite Hq in Hreq. simpl in Hreq. rewrite length_app in Hreq.
    simpl in Hreq.
    replace (length q + 1 =? 0)%nat with false in Hreq
      by (symmetry; apply Nat.eqb_neq; lia).
    injection Hreq as <-.
    destruct HI as [Iq Iw I1 Ib Iwr It Ish Ir].
    constructor; simpl; auto.
    + rewrite drop_app_le by lia. rewrite <- Iq, Hq. reflexivity.
    + replace (busy _) with (busy s) by reflexivity.
      rewrite take_app_le by (destruct (busy s); lia). exact Iw.
    + intros r Hr. specialize (Iwr r Hr). rewrite Hq in Iwr. exact Iwr.
    + now rewrite take_app_le by lia.
    + change (0%nat :: seq 1 (nextRequest s)) with (seq 0 (S (nextRequest s))).
      rewrite map_app, Ir, seq_S. reflexivity.
Qed.

Lemma Inv_settle k r s : Inv s -> Inv (settle k r s).
Proof.
  intros HI. destruct (settle_cases k r s) as [[r' ->]|(fr & cb & Hreq)].
  - now apply Inv_log_outcome.
  - eapply Inv_request; eauto.
Qed.

Lemma Inv_reject_with k x s :
  Inv s -> (forall s', x = inr s' -> Inv s') -> Inv (reject_with k x s).
Proof.
  intros HI Hx. destruct x as [e|s']; simpl; [now apply Inv_settle|auto].
Qed.

Lemma Mid_complete s : Mid s -> Inv (complete s).
Proof.
  intros [Mq Mh Mw Mwr Mhs Mt Msh Mr].
  pose proof (shifted_le_enqueued _ _ _ _ Msh) as Hle.
  unfold complete, shift_request.
  destruct (requestQueue s) as [|r0 q] eqn:Hq; [congruence|]. simpl.
  assert (Hr0 : take (S (length (shifted s))) (enqueued s) =
                take (length (shifted s)) (enqueued s) ++ [r0]).
  { rewrite <- (take_drop (length (shifted s)) (enqueued s)) at 1.
    rewrite <- Mq. rewrite take_app_ge by (rewrite length_take; lia).
    rewrite length_take.
    replace (S (length (shifted s)) - length (shifted s) `min` length (enqueued s))%nat
      with 1%nat by lia.
    reflexivity. }
  assert (Hq' : q = drop (S (length (shifted s))) (enqueued s)).
  { rewrite <- (Nat.add_1_r (length (shifted s))), <- drop_drop, <- Mq.
    reflexivity. }
  assert (Hsh' : map fst (shifted s ++ [(rid r0, ByComplete)]) =
                 map rid (take (S (length (shifted s))) (enqueued s))).
  { rewrite Hr0, !map_app, Msh. reflexivity. }
  destruct q as [|r1 q'].
  - constructor; simpl; unfold busy; simpl; rewrite ?Mwr, ?Mhs, ?Mt; simpl; auto;
      rewrite ?length_app; simpl length; rewrite ?Nat.add_0_r, ?Nat.add_1_r; auto.
    intros r Hr. inversion Hr.
  - unfold writeNextRequest. simpl.
    constructor; simpl; unfold busy; simpl; rewrite ?Mwr, ?Mhs, ?Mt; simpl; auto;
      rewrite ?length_app; simpl length; rewrite ?Nat.add_0_r, ?Nat.add_1_r; auto.
    + rewrite Mw.
      rewrite <- (take_drop (S (length (shifted s))) (enqueued s)) at 2.
      rewrite <- Hq'.
      assert (Hlen : length (take (S (length (shifted s))) (enqueued s)) =
                     S (length (shifted s))).
      { rewrite Hr0, length_app, length_take. simpl. lia. }
      rewrite take_app_ge by lia. rewrite Hlen.
      replace (S (S (length (shifted s))) - S (length (shifted s)))%nat
        with 1%nat by lia.
      reflexivity.
    + intros r Hr. apply list_elem_of_singleton in Hr. now subst.
Qed.

Lemma Mid_shift how s : Mid s -> Inv (shift_request how s).
Proof.
  intros [Mq Mh Mw Mwr Mhs Mt Msh Mr].
  pose proof (shifted_le_enqueued _ _ _ _ Msh) as Hle.
  unfold shift_request.
  destruct (requestQueue s) as [|r0 q] eqn:Hq; [congruence|].
  assert (Hr0 : take (S (length (shifted s))) (enqueued s) =
                take (length (shifted s)) (enqueued s) ++ [r0]).
  { rewrite <- (take_drop (length (shifted s)) (enqueued s)) at 1.
    rewrite <- Mq. rewrite take_app_ge by (rewrite length_take; lia).
    rewrite length_take.
    replace (S (length (shifted s)) - length (shifted s) `min` length (enqueued s))%nat
      with 1%nat by lia.
    reflexivity. }
  constructor; simpl; unfold busy; simpl; rewrite ?Mwr, ?Mhs, ?Mt; simpl; auto;
    rewrite ?length_app; simpl length; rewrite ?Nat.add_0_r, ?Nat.add_1_r; auto.
  - rewrite <- (Nat.add_1_r (length (shifted s))), <- drop_drop, <- Mq.
    reflexivity.
  - intros r Hr. inversion Hr.
  - rewrite Hr0, !map_app, Msh. reflexivity.
Qed.

Lemma Mid_push_handler h s :
  Mid s ->
  Inv (set_responseHandlers
         (responseHandlers (set_timers (timers s ++ [h]) (bump_nextHandler s)) ++ [h])
         (set_timers (timers s ++ [h]) (bump_nextHandler s))).
Proof.
  intros [Mq Mh Mw Mwr Mhs Mt Msh Mr].
  constructor; simpl; unfold busy; simpl; rewrite ?Mwr, ?Mhs, ?Mt; simpl; auto.
  - now rewrite Nat.add_1_r.
  - intros r Hr. inversion Hr.
Qed.

Lemma Mid_set_responseBuffer b s : Mid s -> Mid (set_responseBuffer b s).
Proof. intros []; constructor; auto. Qed.

Lemma Mid_handlerCallback h x s : Mid s -> Inv (handlerCallback h x s).
Proof.
  intros HM. unfold handlerCallback, invokeDone.
  destruct (done h) as [k]. apply Mid_complete in HM.
  destruct x; now apply Inv_settle.
Qed.

Lemma Mid_writeCallback r err s : Mid s -> Inv (writeCallback r err s).
Proof.
  intros HM. unfold writeCallback, requestCallback, invokeDone.
  destruct err as [e|].
  - apply (Mid_shift ByWriteError) in HM.
    destruct (callback r) as [k|len [k]]; now apply Inv_settle.
  - destruct (callback r) as [k|len d].
    + apply Inv_settle. now apply Mid_complete.
    + now apply Mid_push_handler.
Qed.

Lemma Inv_call c k s : Inv s -> Inv (call c k s).
Proof.
  intros HI.
  destruct c; simpl;
    unfold trySetTarget, setTarget, trySetMultipleTargets, setMultipleTargets,
      getMultiplePositions, getMultiplePositions_loop, getPosition,
      requestAndForget, requestAndResponse.
  1-5: apply Inv_reject_with; [assumption|intros s'; now apply Inv_request].
  destruct channels as [|ch rest]; simpl; [now apply Inv_settle|].
  unfold getPosition, requestAndResponse.
  destruct (request _ _ s) eqn:Hreq.
  - now apply Inv_settle.
  - eapply Inv_request; eauto.
Qed.

(** A state with a single armed timer: the timer found is that one. *)
Lemma find_timer_single n s h0 h :
  timers s = [h0] -> find_timer n s = Some h -> h = h0 /\ hid h0 = n.
Proof.
  unfold find_timer. intros ->. simpl.
  destruct (Nat.eqb_spec (hid h0) n); [|discriminate].
  intros [= <-]. auto.
Qed.

Lemma Inv_single_handler s h rest :
  Inv s -> responseHandlers s = h :: rest ->
  rest = [] /\ writing s = [] /\ timers s = [h].
Proof.
  intros HI Hh. pose proof (inv_one s HI) as H1. pose proof (inv_timers s HI) as Ht.
  rewrite Hh in H1, Ht. simpl in H1.
  destruct rest; [|simpl in H1; lia].
  destruct (writing s); [auto|simpl in H1; lia].
Qed.

(** Once the only handler has been taken off the list and its timer is
    disarmed, the engine is between two requests. *)
Lemma Inv_handler_removed s h :
  Inv s -> responseHandlers s = [h] ->
  Mid (clearTimeout h (set_responseHandlers [] s)).
Proof.
  intros HI Hh.
  destruct (Inv_single_handler s h [] HI Hh) as (_ & Hw & Ht).
  pose proof (inv_busy s HI) as Hb.
  pose proof (inv_written s HI) as Hwr.
  unfold busy in Hb, Hwr. rewrite Hw, Hh in Hb, Hwr.
  destruct HI. constructor; simpl; auto.
  - now rewrite Hwr, Nat.add_1_r.
  - rewrite Ht. simpl. now rewrite Nat.eqb_refl.
Qed.

Lemma Inv_onSerialPortData data s : Inv s -> Inv (onSerialPortData data s).
Proof.
  intros HI. unfold onSerialPortData.
  destruct (responseHandlers s) as [|h rest] eqn:Hh; [assumption|].
  destruct (Inv_single_handler s h rest HI Hh) as (-> & _ & _).
  destruct (_ <? _)%nat; [now apply Inv_set_responseBuffer|].
  set (s4 := handlerCallback h _ _).
  assert (H4 : Inv s4).
  { apply Mid_handlerCallback, Mid_set_responseBuffer.
    apply (Inv_handler_removed (set_responseBuffer (responseBuffer s ++ data) s)).
    - now apply Inv_set_responseBuffer.
    - exact Hh. }
  clearbody s4.
  destruct (responseBuffer s4); [exact H4|].
  destruct (responseHandlers s4); [now apply Inv_set_responseBuffer|exact H4].
Qed.

Lemma indexOf_head h l : indexOf h (h :: l) = 0.
Proof. simpl. now rewrite Nat.eqb_refl. Qed.

Lemma Inv_timeout n h s :
  Inv s -> find_timer n s = Some h -> Inv (onTimeout h (clearTimeout h s)).
Proof.
  intros HI Hf.
  destruct (responseHandlers s) as [|h0 rest] eqn:Hh.
  { unfold find_timer in Hf. rewrite (inv_timers s HI), Hh in Hf. discriminate. }
  destruct (Inv_single_handler s h0 rest HI Hh) as (-> & Hw & Ht).
  destruct (find_timer_single n s h0 h Ht Hf) as [-> _].
  unfold onTimeout. simpl responseHandlers. rewrite Hh, indexOf_head.
  apply Mid_handlerCallback.
  change (splice1 0 [h0]) with (@nil responseHandler).
  pose proof (Inv_handler_removed s h0 HI Hh) as HM.
  destruct HM. constructor; auto.
Qed.

Lemma Inv_step s e s' : Inv s -> step s e = Some s' -> Inv s'.
Proof.
  intros HI. destruct e as [c|err|data|n| |]; simpl.
  - intros [= <-]. now apply Inv_call, Inv_bump_nextOp.
  - destruct (writing s) as [|r w] eqn:Hw; [discriminate|].
    intros [= <-]. apply Mid_writeCallback.
    pose proof (inv_one s HI) as H1. rewrite Hw in H1. simpl in H1.
    destruct w; [|simpl in H1; lia].
    destruct (responseHandlers s) eqn:Hh; [|simpl in H1; lia].
    pose proof (inv_busy s HI) as Hb. pose proof (inv_written s HI) as Hwr.
    pose proof (inv_timers s HI) as Ht.
    unfold busy in Hb, Hwr. rewrite Hw in Hb, Hwr. rewrite Hh in Ht.
    destruct HI. constructor; simpl; auto.
    now rewrite Hwr, Nat.add_1_r.
  - intros [= <-]. now apply Inv_onSerialPortData.
  - destruct (find_timer n s) as [h|] eqn:Hf; [|discriminate].
    intros [= <-]. eapply Inv_timeout; eauto.
  - intros [= <-]. now apply Inv_set_isOpen.
  - intros [= <-]. now apply Inv_set_isOpen.
Qed.

Lemma Inv_run tr : forall s s', Inv s -> run s tr = Some s' -> Inv s'.
Proof.
  induction tr as [|e tr IH]; simpl; intros s s' HI.
  - now intros [= <-].
  - destruct (step s e) as [s1|] eqn:Hs; [|discriminate].
    apply IH. eapply Inv_step; eauto.
Qed.

Lemma Inv_reachable open tr s : run (init open) tr = Some s -> Inv s.
Proof. apply Inv_run, Inv_init. Qed.

(** ** Inbound data *)

(** What [onSerialPortData] does once the buffered bytes reach the length the
    head handler waits for. *)
Lemma onSerialPortData_satisfied data s h rest :
  responseHandlers s = h :: rest ->
  (responseLength h <= length (responseBuffer s ++ data))%nat ->
  let s3 :=
    set_responseBuffer (drop (responseLength h) (responseBuffer s ++ data))
      (clearTimeout h
         (set_responseHandlers rest
            (set_responseBuffer (responseBuffer s ++ data) s))) in
  let s4 :=
    handlerCallback h (inr (take (responseLength h) (responseBuffer s ++ data))) s3 in
  onSerialPortData data s =
  match drop (responseLength h) (responseBuffer s ++ data), rest with
  | _ :: _, [] => set_responseBuffer [] s4
  | _, _ => s4
  end.
Proof.
  intros Hh Hlen s3 s4. unfold onSerialPortData. rewrite Hh.
  simpl responseBuffer.
  replace (length (responseBuffer s ++ data) <? responseLength h)%nat with false
    by (symmetry; apply Nat.ltb_ge; exact Hlen).
  fold s3. fold s4.
  destruct (handlerCallback_keeps h
              (inr (take (responseLength h) (responseBuffer s ++ data))) s3)
    as (Hh4 & Hb4 & _).
  fold s4 in Hh4, Hb4. rewrite Hh4, Hb4. reflexivity.
Qed.

(** C9.  When a delivery satisfies the head response handler and no further
    handler is outstanding, whatever is left in the response buffer is
    discarded: the buffer is empty afterwards. *)
Theorem leftover_bytes_discarded (data : list Z) (s : master)
    (h : responseHandler) (rest : list responseHandler) :
  responseHandlers s = h :: rest ->
  (responseLength h <= length (responseBuffer s ++ data))%nat ->
  responseHandlers (onSerialPortData data s) = rest /\
  (rest = [] -> responseBuffer (onSerialPortData data s) = []).
Proof.
  intros Hh Hlen. rewrite (onSerialPortData_satisfied data s h rest Hh Hlen).
  match goal with
  | |- context [handlerCallback h ?x ?s3] =>
      destruct (handlerCallback_keeps h x s3) as (Hh4 & Hb4 & _);
      set (s4 := handlerCallback h x s3) in *
  end.
  simpl in Hh4, Hb4.
  destruct (drop _ _) as [|b l] eqn:Hd; destruct rest as [|h' rest']; simpl;
    rewrite ?Hh4, ?Hb4; split; auto; discriminate.
Qed.

Lemma leftover_bytes_discarded_witness :
  responseHandlers
    (onSerialPortData [0x10; 0x17; 0xFF]
       (after [Call (GetPosition 12 0); WriteDone None])) = [] /\
  (@nil responseHandler = [] ->
   responseBuffer
     (onSerialPortData [0x10; 0x17; 0xFF]
        (after [Call (GetPosition 12 0); WriteDone None])) = []).
Proof.
  apply (leftover_bytes_discarded [0x10; 0x17; 0xFF]
           (after [Call (GetPosition 12 0); WriteDone None])
           (mkHandler 0 2 (DoneGetPosition (KPromise 0))) []);
    [reflexivity | simpl; lia].
Defined.

(** C10.  Data delivered while the handler list is empty is dropped: the
    state is exactly what it was, so the run that follows is the run that
    would have followed without the delivery. *)
Theorem data_without_handler_dropped (s : master) (data : list Z)
    (tr : list event) :
  responseHandlers s = [] ->
  step s (Data data) = Some s /\ run s (Data data :: tr) = run s tr.
Proof.
  intros Hh. simpl. unfold onSerialPortData. rewrite Hh. auto.
Qed.

Lemma data_without_handler_dropped_witness :
  step (init true) (Data [0x10; 0x17]) = Some (init true) /\
  run (init true) [Data [0x10; 0x17]; Call (GetPosition 12 0)] =
  run (init true) [Call (GetPosition 12 0)].
Proof.
  apply (data_without_handler_dropped (init true) [0x10; 0x17]
           [Call (GetPosition 12 0)]); reflexivity.
Defined.

(** C8.  A position in [0, 65535] delivered low byte first to the handler of
    a [getPosition] call resolves the call with that position, in however
    many deliveries the two bytes arrive; the bytes [0x10, 0x17] decode to
    5904. *)
Theorem getPosition_resolves_with_position (p : Z) (s : master)
    (h : responseHandler) (rest : list responseHandler) (op : nat)
    (data more : list Z) :
  0 <= p <= 65535 ->
  responseHandlers s = h :: rest ->
  responseLength h = 2%nat ->
  done h = DoneGetPosition (KPromise op) ->
  responseBuffer s ++ data = Z.land p 0xFF :: Z.shiftr p 8 :: more ->
  (exists s', step s (Data data) = Some s' /\
              outcomes s' = outcomes s ++ [(op, Resolved (VNum p))]) /\
  decodePosition [0x10; 0x17] = 5904.
Proof.
  intros Hp Hh Hlen Hdone Hbuf. split; [|reflexivity].
  eexists. split; [reflexivity|].
  rewrite (onSerialPortData_satisfied _ s h rest Hh)
    by (rewrite Hbuf, Hlen; simpl; lia).
  rewrite Hbuf, Hlen. simpl drop. simpl take.
  assert (Ho : forall s0,
             outcomes (handlerCallback h (inr [Z.land p 255; Z.shiftr p 8]) s0) =
             outcomes s0 ++ [(op, Resolved (VNum p))]).
  { intros s0. unfold handlerCallback, invokeDone. rewrite Hdone. simpl.
    destruct (complete_keeps s0) as (_ & _ & _ & _ & ->).
    change [Z.land p 255; Z.shiftr p 8] with (positionBytes p).
    now rewrite decodePosition_positionBytes. }
  destruct more, rest; simpl; rewrite Ho; reflexivity.
Qed.

Lemma getPosition_resolves_with_position_witness :
  (exists s',
     step (after [Call (GetPosition 12 0); WriteDone None])
          (Data [0x10; 0x17]) = Some s' /\
     outcomes s' =
       outcomes (after [Call (GetPosition 12 0); WriteDone None]) ++
       [(0%nat, Resolved (VNum 5904))]) /\
  decodePosition [0x10; 0x17] = 5904.
Proof.
  apply (getPosition_resolves_with_position 5904
           (after [Call (GetPosition 12 0); WriteDone None])
           (mkHandler 0 2 (DoneGetPosition (KPromise 0))) [] 0%nat
           [0x10; 0x17] []);
    [lia | reflexivity | reflexivity | reflexivity | reflexivity].
Defined.

(** ** Frames on the wire *)

(** C5 (as the code has it).  On an open engine with an empty queue,
    [setTarget(device=12, channel=0, target=6000)] writes exactly the frame
    [0xAA, 12, 0x04, 0, 0x70, 0x2E]: the fifth byte is [6000 & 0x7F], which is
    0x70, and the sixth is [(6000 >> 7) & 0x7F], which is 0x2E. *)
Theorem setTarget_12_0_6000_frame (s : master) (k : continuation) :
  isOpen s = true ->
  requestQueue s = [] ->
  frames (written (setTarget 12 0 6000 k s)) =
    frames (written s) ++ [[0xAA; 12; 0x04; 0; 0x70; 0x2E]] /\
  Z.land 6000 0x7F = 0x70 /\
  Z.land (Z.shiftr 6000 7) 0x7F = 0x2E.
Proof.
  intros Hopen Hq. split; [|split; reflexivity].
  unfold setTarget, requestAndForget. rewrite request_idle by assumption.
  simpl. unfold frames. rewrite map_app. reflexivity.
Qed.

Lemma setTarget_12_0_6000_frame_witness :
  frames (written (setTarget 12 0 6000 (KPromise 0) (init true))) =
    frames (written (init true)) ++ [[0xAA; 12; 0x04; 0; 0x70; 0x2E]] /\
  Z.land 6000 0x7F = 0x70 /\
  Z.land (Z.shiftr 6000 7) 0x7F = 0x2E.
Proof.
  apply (setTarget_12_0_6000_frame (init true) (KPromise 0)); reflexivity.
Defined.

(** C5 as stated fails: the frame written is not
    [0xAA, 12, 0x04, 0, 0x60, 0x2E], and [6000 & 0x7F] is not 0x60. *)
Lemma setTarget_12_0_6000_not_0x60 :
  exists s,
    run (init true) [Call (SetTarget 12 0 6000)] = Some s /\
    frames (written s) <> [[0xAA; 12; 0x04; 0; 0x60; 0x2E]] /\
    Z.land 6000 0x7F <> 0x60.
Proof.
  eexists. split; [reflexivity|]. split; vm_compute; discriminate.
Qed.

(** ** Verification after a batched write *)

(** The check of [trySetMultipleTargets] binds [channel] and [target] by
    destructuring each element of [options.targets].  When the elements are
    the numbers [setMultipleTargets] encodes, both are [undefined], the
    position looked up is [undefined] too, and no element ever throws,
    whatever was read back. *)
Lemma checkTargets_numbers (device : Z) (m : gmap Z Z) (targets : list Z) :
  checkTargets device (VPositions m) (map TNum targets) = None.
Proof.
  induction targets as [|t ts IH]; simpl; auto.
Qed.

(** With elements of the shape [{channel, target}] the check does compare the
    position read back with the target. *)
Lemma checkTargets_object (device channel target actual : Z) (m : gmap Z Z) :
  m !! channel = Some actual ->
  checkTargets device (VPositions m) [TObj (VNum channel) (VNum target)] =
  if actual =? target then None
  else Some (TargetMismatch device (VNum channel) (VNum target) (VNum actual)).
Proof.
  intros Hm. simpl. rewrite Hm. simpl. now destruct (actual =? target).
Qed.

(** C1 (the code at the failing input).
    [trySetMultipleTargets(device=1, channel=0, targets=[4000])]: the batched
    write succeeds, the read of channel 0 succeeds and reports 3999, and the
    call resolves; no mismatch is raised. *)
Theorem trySetMultipleTargets_mismatch_resolves :
  exists s,
    run (init true)
      [Call (TrySetMultipleTargets 1 0 [TNum 4000]);
       WriteDone None; WriteDone None; Data (positionBytes 3999)] = Some s /\
    frames (written s) =
      [setMultipleTargetsFrame 1 0 [TNum 4000]; getPositionFrame 1 0] /\
    decodePosition (positionBytes 3999) = 3999 /\
    outcomes s = [(0%nat, Resolved VUndef)].
Proof.
  eexists. split; [vm_compute; reflexivity|].
  repeat split; vm_compute; reflexivity.
Qed.

(** ** Write failures *)

Lemma request_behind_keeps fr cb s s' :
  requestQueue s <> [] -> request fr cb s = inr s' ->
  requestQueue s' <> [] /\ writing s' = writing s /\ written s' = written s /\
  responseHandlers s' = responseHandlers s /\ timers s' = timers s.
Proof.
  intros Hq Hreq.
  destruct (request_behind fr cb s s' Hq Hreq) as (Hq' & Hw & Hwr).
  destruct (request_keeps fr cb s s' Hreq) as (_ & _ & Hh & _ & Ht & _).
  repeat split; auto. rewrite Hq'. now destruct (requestQueue s).
Qed.

Lemma settle_behind k r s :
  requestQueue s <> [] ->
  requestQueue (settle k r s) <> [] /\
  writing (settle k r s) = writing s /\ written (settle k r s) = written s /\
  responseHandlers (settle k r s) = responseHandlers s /\
  timers (settle k r s) = timers s.
Proof.
  intros Hq. destruct (settle_cases k r s) as [[r' ->]|(fr & cb & Hreq)].
  - simpl. auto.
  - eapply request_behind_keeps; eauto.
Qed.

Lemma call_behind c k s :
  requestQueue s <> [] ->
  requestQueue (call c k s) <> [] /\
  writing (call c k s) = writing s /\ written (call c k s) = written s /\
  responseHandlers (call c k s) = responseHandlers s /\
  timers (call c k s) = timers s.
Proof.
  intros Hq.
  assert (Hrw : forall k' fr cb,
             let s' := reject_with k' (request fr cb s) s in
             requestQueue s' <> [] /\ writing s' = writing s /\
             written s' = written s /\
             responseHandlers s' = responseHandlers s /\ timers s' = timers s).
  { intros k' fr cb. simpl. destruct (request fr cb s) eqn:Hreq; simpl.
    - now apply settle_behind.
    - eapply request_behind_keeps; eauto. }
  destruct c; simpl;
    unfold trySetTarget, setTarget, trySetMultipleTargets, setMultipleTargets,
      getMultiplePositions, getMultiplePositions_loop, getPosition,
      requestAndForget, requestAndResponse.
  1-5: apply Hrw.
  destruct channels as [|ch rest]; simpl; [now apply settle_behind|].
  unfold getPosition, requestAndResponse.
  destruct (request _ _ s) eqn:Hreq.
  - now apply settle_behind.
  - eapply request_behind_keeps; eauto.
Qed.

(** A stalled queue stays stalled, whatever happens next, and nothing is
    written any more. *)
Lemma Stalled_step s e s' :
  Stalled s -> step s e = Some s' -> Stalled s' /\ written s' = written s.
Proof.
  intros [Hq Hw Hh Ht]. destruct e as [c|err|data|n| |]; simpl.
  - intros [= <-].
    destruct (call_behind c (KPromise (nextOp s)) (bump_nextOp s) Hq)
      as (Hq' & Hw' & Hwr' & Hh' & Ht').
    simpl in Hw', Hwr', Hh', Ht'.
    split; [constructor|]; congruence.
  - rewrite Hw. discriminate.
  - intros [= <-]. unfold onSerialPortData. rewrite Hh.
    split; [constructor|]; auto.
  - unfold find_timer. rewrite Ht. discriminate.
  - intros [= <-]. split; [constructor|]; auto.
  - intros [= <-]. split; [constructor|]; auto.
Qed.

Lemma Stalled_run tr : forall s s',
  Stalled s -> run s tr = Some s' -> Stalled s' /\ written s' = written s.
Proof.
  induction tr as [|e tr IH]; simpl; intros s s' HS.
  - intros [= <-]. auto.
  - destruct (step s e) as [s1|] eqn:Hs; [|discriminate].
    intros Hrun. destruct (Stalled_step s e s1 HS Hs) as [HS1 Hw1].
    destruct (IH s1 s' HS1 Hrun) as [HS' Hw']. split; congruence.
Qed.

(** C2 (the code at the failing input).  Two [setTarget] calls are queued
    and the write of the first fails.  The first request leaves the queue
    once and its call is rejected with the write error; the second request
    stays at the head of the queue and is never written, nor is any request
    issued later. *)
Theorem write_error_stalls_queue :
  exists s,
    run (init true)
      [Call (SetTarget 12 0 6000); Call (SetTarget 12 1 6000);
       WriteDone (Some 7%nat)] = Some s /\
    frames (requestQueue s) = [setTargetFrame 12 1 6000] /\
    shifted s = [(0%nat, ByWriteError)] /\
    outcomes s = [(0%nat, Rejected (WriteError 7))] /\
    writing s = [] /\
    frames (written s) = [setTargetFrame 12 0 6000] /\
    forall tr s', run s tr = Some s' ->
      frames (written s') = [setTargetFrame 12 0 6000] /\ writing s' = [].
Proof.
  eexists. split; [vm_compute; reflexivity|].
  repeat (split; [vm_compute; reflexivity|]).
  intros tr s' Hrun.
  apply Stalled_run in Hrun.
  - destruct Hrun as [[_ Hw _ _] Hwr]. rewrite Hwr. split; [reflexivity|exact Hw].
  - constructor; simpl; auto; discriminate.
Qed.

(** ** Calls on a closed port *)

(** C7 (as the code has it).  A call made while the port is closed settles
    within the call and leaves the request queue, the handler list, the
    response buffer, the owed writes and the timers as they were.  It is
    rejected with the closed-port error, which [getMultiplePositions] wraps
    in its per-channel message; [getMultiplePositions] with no channel issues
    no request and resolves with an empty object. *)
Theorem closed_port_call (s : master) (c : api_call) :
  isOpen s = false ->
  exists s',
    step s (Call c) = Some s' /\
    requestQueue s' = requestQueue s /\
    responseHandlers s' = responseHandlers s /\
    responseBuffer s' = responseBuffer s /\
    writing s' = writing s /\
    written s' = written s /\
    timers s' = timers s /\
    outcomes s' =
      outcomes s ++
      [(nextOp s,
        match c with
        | GetMultiplePositions _ [] => Resolved (VPositions ∅)
        | GetMultiplePositions device (channel :: _) =>
            Rejected (GetPositionFailed device channel SerialPortClosed)
        | _ => Rejected SerialPortClosed
        end)].
Proof.
  intros Hclosed. eexists. split; [reflexivity|].
  destruct c as [d ch t|d ch t|d ch ts|d ch ts|d ch|d [|ch chs]]; simpl;
    unfold trySetTarget, setTarget, trySetMultipleTargets, setMultipleTargets,
      getMultiplePositions, getMultiplePositions_loop,
      getMultiplePositions_from, getPosition,
      requestAndForget, requestAndResponse, request;
    simpl; rewrite ?Hclosed; simpl; repeat split; reflexivity.
Qed.

Lemma closed_port_call_witness :
  exists s',
    step (init false) (Call (TrySetTarget 1 2 4000)) = Some s' /\
    requestQueue s' = requestQueue (init false) /\
    responseHandlers s' = responseHandlers (init false) /\
    responseBuffer s' = responseBuffer (init false) /\
    writing s' = writing (init false) /\
    written s' = written (init false) /\
    timers s' = timers (init false) /\
    outcomes s' =
      outcomes (init false) ++
      [(nextOp (init false), Rejected SerialPortClosed)].
Proof.
  apply (closed_port_call (init false) (TrySetTarget 1 2 4000)). reflexivity.
Defined.

(** C7 as stated fails: on a closed port [getMultiplePositions] with an
    empty channel list does not fail, it resolves. *)
Lemma closed_port_getMultiplePositions_empty_resolves :
  exists s',
    step (init false) (Call (GetMultiplePositions 5 [])) = Some s' /\
    outcomes s' = [(0%nat, Resolved (VPositions ∅))].
Proof.
  eexists. split; reflexivity.
Qed.

(** ** Single-request operations are enqueued in the order of the calls *)

Lemma Forall_splice1 {A} (P : A -> Prop) (i : Z) (l : list A) :
  Forall P l -> Forall P (splice1 i l).
Proof.
  intros H. unfold splice1. apply Forall_app. split.
  - now apply Forall_take.
  - now apply Forall_drop.
Qed.

Lemma Forall_list_filter {A} (P : A -> Prop) (f : A -> bool) (l : list A) :
  Forall P l -> Forall P (List.filter f l).
Proof.
  induction 1 as [|x l Hx Hl IH]; simpl; [constructor|].
  destruct (f x); [constructor|]; auto.
Qed.

Lemma Plain_complete s :
  Plain s -> Plain (complete s) /\ enqueued (complete s) = enqueued s.
Proof.
  intros [Ho Hq Hw Hh Ht]. unfold complete, shift_request, writeNextRequest.
  destruct (requestQueue s) as [|r [|r' q]] eqn:E; simpl; rewrite ?E; simpl.
  - split; [constructor|]; rewrite ?E; auto.
  - split; [constructor|]; simpl; auto.
  - inversion Hq as [|? ? _ Hq']; subst. inversion Hq' as [|? ? Hr' _]; subst.
    split; [constructor|]; simpl; auto.
    apply Forall_app. split; auto.
Qed.

Lemma Plain_shift how s :
  Plain s ->
  Plain (shift_request how s) /\ enqueued (shift_request how s) = enqueued s.
Proof.
  intros [Ho Hq Hw Hh Ht]. unfold shift_request.
  destruct (requestQueue s) as [|r q] eqn:E.
  - split; [constructor|]; rewrite ?E; auto.
  - inversion Hq; subst. split; [constructor|]; simpl; auto.
Qed.

Lemma Plain_handlerCallback h x s :
  Plain s -> plain_done (done h) ->
  Plain (handlerCallback h x s) /\
  enqueued (handlerCallback h x s) = enqueued s.
Proof.
  intros HP Hd. unfold handlerCallback, invokeDone.
  destruct (done h) as [[op| | | | |]]; simpl in Hd; try contradiction.
  destruct (Plain_complete s HP) as [[Ho Hq Hw Hh Ht] He].
  destruct x; simpl; (split; [constructor|]; auto).
Qed.

Lemma Plain_step s e s' :
  Plain s -> single_request e = true -> step s e = Some s' ->
  Plain s' /\ frames (enqueued s') = frames (enqueued s) ++ issued [e].
Proof.
  intros HP He. destruct e as [c|err|data|n| |]; simpl in *.
  - (* a call: its request is pushed *)
    destruct (frame_of_call c) as [fr|] eqn:Hfr; [|discriminate].
    intros [= <-].
    assert (Hreq : forall cb, plain_cb cb ->
               let s1 := reject_with (KPromise (nextOp s))
                           (request fr cb (bump_nextOp s)) (bump_nextOp s) in
               Plain s1 /\ frames (enqueued s1) = frames (enqueued s) ++ [fr]).
    { intros cb Hcb. destruct HP as [Ho Hq Hw Hh Ht].
      unfold request. simpl. rewrite Ho. simpl.
      assert (Hq' : Forall (fun r => plain_cb (callback r))
                      (requestQueue s ++ [mkRequest (nextRequest s) fr cb])).
      { apply Forall_app. split; auto. }
      destruct (_ =? _)%nat; simpl; unfold writeNextRequest; simpl;
        unfold frames.
      - destruct (requestQueue s ++ _) as [|r0 q0] eqn:E; simpl;
          rewrite map_app; simpl;
          (split; [constructor|]; simpl; rewrite ?E; auto).
        apply Forall_app. split; auto.
        inversion Hq'; subst. auto.
      - rewrite map_app. split; [constructor|]; simpl; auto. }
    destruct c; simpl in Hfr; try discriminate; injection Hfr as <-; simpl;
      unfold setTarget, setMultipleTargets, getPosition, requestAndForget,
        requestAndResponse; apply Hreq; simpl; auto.
  - (* the port calls back a write *)
    destruct (writing s) as [|r w] eqn:Hwr; [discriminate|].
    intros [= <-]. rewrite app_nil_r.
    pose proof (plain_writing s HP) as Hpw. rewrite Hwr in Hpw.
    inversion Hpw as [|? ? Hr Hw']; subst.
    assert (HP1 : Plain (set_writing w s)).
    { destruct HP. constructor; auto. }
    unfold writeCallback, requestCallback, invokeDone.
    destruct (callback r) as [[op| | | | |]|len [[op| | | | |]]];
      simpl in Hr; try contradiction; destruct err as [e|]; simpl.
    + destruct (Plain_shift ByWriteError _ HP1) as [[] He1].
      split; [constructor|]; simpl; auto. now rewrite He1.
    + destruct (Plain_complete _ HP1) as [[] He1].
      split; [constructor|]; simpl; auto. now rewrite He1.
    + destruct (Plain_shift ByWriteError _ HP1) as [[] He1].
      split; [constructor|]; simpl; auto. now rewrite He1.
    + destruct HP1 as [Ho Hq Hw Hh Ht].
      split; [constructor|]; simpl; auto; apply Forall_app; split; auto;
        constructor; simpl; auto.
  - (* data *)
    intros [= <-]. rewrite app_nil_r. unfold onSerialPortData.
    destruct (responseHandlers s) as [|h rest] eqn:Hh; [auto|].
    pose proof (plain_handlers s HP) as Hph. rewrite Hh in Hph.
    inversion Hph as [|? ? Hd Hrest]; subst.
    destruct (_ <? _)%nat.
    { split; [destruct HP; constructor|]; auto. }
    set (s4 := handlerCallback h _ _).
    assert (H4 : Plain s4 /\ enqueued s4 = enqueued s).
    { subst s4.
      match goal with
      | |- Plain (handlerCallback h ?x ?s3) /\ _ =>
          destruct (Plain_handlerCallback h x s3) as [HPa Hea];
            [|exact Hd|split; [exact HPa|exact Hea]]
      end.
      destruct HP as [Ho Hq Hw _ Ht]. constructor; simpl; auto.
      unfold clearTimeout. simpl. now apply Forall_list_filter. }
    clearbody s4. destruct H4 as [[Ho Hq Hw Hh4 Ht] He4].
    destruct (responseBuffer s4); [|destruct (responseHandlers s4) eqn:E];
      (split; [constructor|]); simpl; rewrite ?E; auto; now rewrite He4.
  - (* timeout *)
    destruct (find_timer n s) as [h|] eqn:Hf; [|discriminate].
    intros [= <-]. rewrite app_nil_r.
    assert (Hd : plain_done (done h)).
    { unfold find_timer in Hf. apply find_some in Hf. destruct Hf as [Hin _].
      pose proof (plain_timers s HP) as Hpt.
      rewrite Forall_forall in Hpt. apply Hpt. now apply list_elem_of_In. }
    unfold onTimeout.
    match goal with
    | |- context [handlerCallback h ?x ?s1] =>
        destruct (Plain_handlerCallback h x s1) as [HP' He']; [|exact Hd|]
    end.
    + destruct HP as [Ho Hq Hw Hh Ht]. constructor; simpl; auto.
      * now apply Forall_splice1.
      * now apply Forall_list_filter.
    + split; [exact HP'|]. now rewrite He'.
  - intros [= <-]. rewrite app_nil_r.
    split; [destruct HP; constructor|]; auto.
  - discriminate.
Qed.

Lemma issued_app tr1 tr2 : issued (tr1 ++ tr2) = issued tr1 ++ issued tr2.
Proof.
  induction tr1 as [|e tr1 IH]; simpl; auto.
  destruct e as [c| | | | |]; auto.
  destruct (frame_of_call c); simpl; now rewrite IH.
Qed.

Lemma Plain_run tr : forall s s',
  Plain s -> forallb single_request tr = true -> run s tr = Some s' ->
  frames (enqueued s') = frames (enqueued s) ++ issued tr.
Proof.
  induction tr as [|e tr IH]; intros s s' HP Htr Hrun.
  - injection Hrun as <-. simpl. now rewrite app_nil_r.
  - simpl in Htr, Hrun. apply andb_true_iff in Htr. destruct Htr as [He Htr].
    destruct (step s e) as [s1|] eqn:Hs; [|discriminate].
    destruct (Plain_step s e s1 HP He Hs) as [HP1 He1].
    change (e :: tr) with ([e] ++ tr).
    rewrite issued_app, (IH s1 s' HP1 Htr Hrun), He1, <- app_assoc.
    reflexivity.
Qed.

(** ** Ordering and the single outstanding write *)

Lemma lookup_rid_seq (l : list pendingRequest) (n i : nat) (r : pendingRequest) :
  map rid l = seq 0 n -> l !! i = Some r -> rid r = i.
Proof.
  intros Hl Hr.
  assert (H : map rid l !! i = Some (rid r)).
  { change (map rid l) with (rid <$> l). rewrite list_lookup_fmap, Hr. reflexivity. }
  rewrite Hl in H. apply lookup_seq in H. lia.
Qed.

(** C3 (as the code has it).  In every state the engine reaches: the writes
    handed to the port are an initial segment of the requests in the order
    they were pushed on the queue; at most one write is outstanding, and it
    is the write of the head of the queue; every request written earlier has
    been shifted off the queue, by its completion continuation or by the
    write-failure path, and is no longer in it.  When every operation issued
    is made of a single request and the port stays open, the frames written
    are an initial segment of the frames of the operations in the order they
    were issued. *)
Theorem writes_follow_queue_order (open : bool) (tr : list event) (s : master) :
  run (init open) tr = Some s ->
  (exists rest, enqueued s = written s ++ rest) /\
  (length (writing s) <= 1)%nat /\
  (forall r, r ∈ writing s -> head (requestQueue s) = Some r) /\
  (forall r, r ∈ written s ->
     head (requestQueue s) = Some r \/
     (rid r, ByComplete) ∈ shifted s \/ (rid r, ByWriteError) ∈ shifted s) /\
  (forall r how, (rid r, how) ∈ shifted s -> r ∉ requestQueue s) /\
  (open = true -> forallb single_request tr = true ->
   exists later, issued tr = frames (written s) ++ later).
Proof.
  intros Hrun. pose proof Hrun as Hrun0. apply Inv_reachable in Hrun.
  pose proof (shifted_le_enqueued _ _ _ _ (inv_shifted s Hrun)) as Hle.
  destruct Hrun as [Iq Iw I1 Ib Iwr It Ish Ir].
  split; [|split; [|split; [|split; [|split]]]]; cycle 5.
  - intros -> Htr.
    assert (HP : Plain (init true)) by (constructor; simpl; auto).
    rewrite <- (app_nil_l (issued tr)).
    change [] with (frames (enqueued (init true))) at 1.
    rewrite <- (Plain_run tr _ _ HP Htr Hrun0).
    exists (frames (drop (length (shifted s) + (if busy s then 1 else 0))%nat
                      (enqueued s))).
    rewrite Iw. unfold frames. rewrite <- map_app. now rewrite take_drop.
  - exists (drop (length (shifted s) + (if busy s then 1 else 0))%nat (enqueued s)).
    rewrite Iw. symmetry. apply take_drop.
  - lia.
  - exact Iwr.
  - intros r Hr. rewrite Iw in Hr.
    apply list_elem_of_lookup in Hr. destruct Hr as [i Hi].
    apply lookup_take_Some in Hi. destruct Hi as [Hi Hlt].
    destruct (Nat.lt_ge_cases i (length (shifted s))) as [Hin|Hout].
    + right.
      assert (Hfst : map fst (shifted s) !! i = Some (rid r)).
      { rewrite Ish. change (map rid ?l) with (rid <$> l).
        rewrite list_lookup_fmap, lookup_take_lt by lia. now rewrite Hi. }
      change (map fst ?l) with (fst <$> l) in Hfst.
      rewrite list_lookup_fmap in Hfst.
      destruct (shifted s !! i) as [[n how]|] eqn:Hs; [|discriminate].
      simpl in Hfst. injection Hfst as ->.
      apply list_elem_of_lookup_2 in Hs. destruct how; auto.
    + left. assert (i = length (shifted s)) as -> by (destruct (busy s); lia).
      rewrite Iq. rewrite <- Hi. clear.
      generalize (length (shifted s)). intros n. revert n.
      induction (enqueued s) as [|x l IH]; intros [|n]; simpl; auto.
  - intros r how Hsh Hq.
    assert (Hlt : (rid r < length (shifted s))%nat).
    { apply (list_elem_of_fmap_2 fst) in Hsh. simpl in Hsh.
      change (fst <$> shifted s) with (map fst (shifted s)) in Hsh.
      rewrite Ish in Hsh. change (map rid ?l) with (rid <$> l) in Hsh.
      apply list_elem_of_fmap in Hsh. destruct Hsh as (r' & Hrid & Hr').
      apply list_elem_of_lookup in Hr'. destruct Hr' as [i Hi].
      apply lookup_take_Some in Hi. destruct Hi as [Hi Hlt].
      rewrite Hrid. rewrite (lookup_rid_seq _ _ _ _ Ir Hi). exact Hlt. }
    rewrite Iq in Hq. apply list_elem_of_lookup in Hq. destruct Hq as [j Hj].
    rewrite lookup_drop in Hj.
    pose proof (lookup_rid_seq _ _ _ _ Ir Hj). lia.
Qed.

Lemma writes_follow_queue_order_witness :
  let s := after [Call (SetTarget 12 0 6000); Call (GetPosition 12 0);
                  WriteDone None] in
  (exists rest, enqueued s = written s ++ rest) /\
  (length (writing s) <= 1)%nat /\
  (forall r, r ∈ writing s -> head (requestQueue s) = Some r) /\
  (forall r, r ∈ written s ->
     head (requestQueue s) = Some r \/
     (rid r, ByComplete) ∈ shifted s \/ (rid r, ByWriteError) ∈ shifted s) /\
  (forall r how, (rid r, how) ∈ shifted s -> r ∉ requestQueue s) /\
  (true = true ->
   forallb single_request
     [Call (SetTarget 12 0 6000); Call (GetPosition 12 0); WriteDone None] = true ->
   exists later,
     issued [Call (SetTarget 12 0 6000); Call (GetPosition 12 0); WriteDone None] =
     frames (written s) ++ later).
Proof.
  apply (writes_follow_queue_order true
           [Call (SetTarget 12 0 6000); Call (GetPosition 12 0); WriteDone None]).
  vm_compute. reflexivity.
Defined.

(** C3 as stated fails in its last part: after the write of a request has
    failed, the write of the next request issued begins although the
    completion continuation of the first never ran; the first request left
    the queue through the write-failure path. *)
Lemma write_begins_without_completion :
  exists s r0 r1,
    run (init true)
      [Call (SetTarget 12 0 6000); WriteDone (Some 1%nat);
       Call (SetTarget 12 1 6000)] = Some s /\
    written s = [r0; r1] /\
    writing s = [r1] /\
    shifted s = [(rid r0, ByWriteError)] /\
    (rid r0, ByComplete) ∉ shifted s.
Proof.
  do 3 eexists. split; [vm_compute; reflexivity|].
  repeat (split; [reflexivity|]).
  intros H. apply list_elem_of_singleton in H. discriminate.
Qed.

(** ** Response timeout *)

(** C4.  In a state the engine reaches, when the timer of a response handler
    fires: the handler is removed from the handler list by identity, its
    callback runs with the timeout error, which rejects the pending call,
    and the completion continuation runs, which shifts the head request off
    the queue and, if a request is queued behind it, writes that request. *)
Theorem timeout_advances_queue (open : bool) (tr : list event) (s : master)
    (n : nat) (h : responseHandler) :
  run (init open) tr = Some s ->
  find_timer n s = Some h ->
  exists s' r q k,
    step s (Timeout n) = Some s' /\
    done h = DoneGetPosition k /\
    requestQueue s = r :: q /\
    responseHandlers s' =
      List.filter (fun x => negb (hid x =? hid h)%nat) (responseHandlers s) /\
    (h ∉ responseHandlers s') /\
    find_timer n s' = None /\
    outcomes s' =
      outcomes s ++ [(promise_of k, Rejected (rejection k ResponseTimeout))] /\
    shifted s' = shifted s ++ [(rid r, ByComplete)] /\
    requestQueue s' = q /\
    match q with
    | [] => writing s' = [] /\ written s' = written s
    | next :: _ => writing s' = [next] /\ written s' = written s ++ [next]
    end.
Proof.
  intros Hrun Hf. apply Inv_reachable in Hrun.
  destruct (responseHandlers s) as [|h0 rest] eqn:Hh.
  { unfold find_timer in Hf. rewrite (inv_timers s Hrun), Hh in Hf. discriminate. }
  destruct (Inv_single_handler s h0 rest Hrun Hh) as (-> & Hw & Ht).
  destruct (find_timer_single n s h0 h Ht Hf) as [-> _].
  destruct (requestQueue s) as [|r q] eqn:Hq.
  { exfalso. apply (inv_busy s Hrun); [|exact Hq].
    unfold busy. rewrite Hw, Hh. reflexivity. }
  destruct (done h0) as [k] eqn:Hd.
  exists (onTimeout h0 (clearTimeout h0 s)), r, q, k.
  split; [simpl; now rewrite Hf|].
  split; [reflexivity|]. split; [reflexivity|].
  unfold onTimeout, handlerCallback, invokeDone. rewrite Hd, settle_rejected.
  simpl responseHandlers. rewrite Hh, indexOf_head.
  change (splice1 0 [h0]) with (@nil responseHandler).
  unfold complete, shift_request, clearTimeout, find_timer. simpl.
  rewrite ?Hq, ?Ht, ?Hh. simpl. rewrite ?Nat.eqb_refl. simpl.
  destruct q as [|next q']; unfold writeNextRequest; simpl; rewrite ?Hw; simpl;
    repeat split; auto; apply not_elem_of_nil.
Qed.

Lemma timeout_advances_queue_witness :
  let s := after [Call (GetPosition 12 0); Call (SetTarget 12 1 6000);
                  WriteDone None] in
  let h := mkHandler 0 2 (DoneGetPosition (KPromise 0)) in
  exists s' r q k,
    step s (Timeout 0) = Some s' /\
    done h = DoneGetPosition k /\
    requestQueue s = r :: q /\
    responseHandlers s' =
      List.filter (fun x => negb (hid x =? hid h)%nat) (responseHandlers s) /\
    (h ∉ responseHandlers s') /\
    find_timer 0 s' = None /\
    outcomes s' =
      outcomes s ++ [(promise_of k, Rejected (rejection k ResponseTimeout))] /\
    shifted s' = shifted s ++ [(rid r, ByComplete)] /\
    requestQueue s' = q /\
    match q with
    | [] => writing s' = [] /\ written s' = written s
    | next :: _ => writing s' = [next] /\ written s' = written s ++ [next]
    end.
Proof.
  apply (timeout_advances_queue true
           [Call (GetPosition 12 0); Call (SetTarget 12 1 6000); WriteDone None]);
    vm_compute; reflexivity.
Defined.

(** ** Reading several positions *)

Lemma Quiet_served r s : Quiet s -> Quiet (served r s).
Proof. intros []. constructor; auto. Qed.

Lemma Quiet_bump_nextOp s : Quiet s -> Quiet (bump_nextOp s).
Proof. intros []. constructor; auto. Qed.

(** In a quiet state the loop issues the read of its first channel: the
    request is pushed and written. *)
Lemma getMultiplePositions_loop_issue device c rest m k s :
  Quiet s ->
  let r := positionRequest device c rest m k s in
  getMultiplePositions_loop device (c :: rest) m k s =
  serialPort_write r (log_enqueued r (set_requestQueue [r] s)).
Proof.
  intros [Hopen Hq _ _ _ _]. unfold getMultiplePositions_loop.
  simpl. unfold getPosition, requestAndResponse.
  rewrite request_idle by assumption. reflexivity.
Qed.

(** One read that succeeds: the write completes, the two bytes arrive, the
    request is completed and the loop goes on with the next channel. *)
Lemma getMultiplePositions_loop_read device c rest m k s p tr :
  Quiet s -> 0 <= p <= 65535 ->
  run (getMultiplePositions_loop device (c :: rest) m k s) (readOk p ++ tr) =
  run (getMultiplePositions_loop device rest (<[c := p]> m) k
         (served (positionRequest device c rest m k s) s)) tr.
Proof.
  intros HQ Hp. rewrite getMultiplePositions_loop_issue by assumption.
  destruct HQ as [Hopen Hq Hh Hb Hw Ht].
  destruct s as [o q hs b w t wr oc enq sh nr nh no]. simpl in *. subst.
  unfold readOk, positionRequest. simpl.
  rewrite (onSerialPortData_satisfied _ _
             (mkHandler nh 2 (DoneGetPosition (KAwaitPosition device c rest m k)))
             []) by (simpl; auto).
  unfold clearTimeout. simpl.
  rewrite Nat.eqb_refl.
  cbv [handlerCallback invokeDone complete shift_request writeNextRequest
       set_responseBuffer set_timers set_responseHandlers bump_nextHandler
       set_writing serialPort_write log_enqueued log_written log_shifted
       set_requestQueue done negb
       isOpen requestQueue responseHandlers responseBuffer writing timers
       written outcomes enqueued shifted nextRequest nextHandler nextOp rid].
  change [Z.land p 255; Z.shiftr p 8] with (positionBytes p).
  rewrite decodePosition_positionBytes by assumption.
  reflexivity.
Qed.

Lemma serve_reads_facts device k : forall pre ps tail m s,
  Quiet s -> length ps = length pre ->
  Quiet (serve_reads device k m pre ps tail s) /\
  outcomes (serve_reads device k m pre ps tail s) = outcomes s /\
  nextOp (serve_reads device k m pre ps tail s) = nextOp s /\
  frames (written (serve_reads device k m pre ps tail s)) =
    frames (written s) ++ map (getPositionFrame device) pre.
Proof.
  induction pre as [|c pre IH]; intros [|p ps] tail m s HQ Hlen;
    simpl in Hlen; try discriminate.
  - simpl. rewrite app_nil_r. auto.
  - injection Hlen as Hlen.
    destruct (IH ps tail (<[c := p]> m)
                (served (positionRequest device c (pre ++ tail) m k s) s)
                (Quiet_served _ _ HQ) Hlen) as (HQ' & Ho & Hn & Hw).
    change (serve_reads device k m (c :: pre) (p :: ps) tail s) with
      (serve_reads device k (<[c := p]> m) pre ps tail
         (served (positionRequest device c (pre ++ tail) m k s) s)).
    split; [exact HQ'|]. split; [exact Ho|]. split; [exact Hn|].
    rewrite Hw. simpl. unfold frames. rewrite map_app. simpl.
    now rewrite <- app_assoc.
Qed.

(** The reads of [pre] succeed one after the other with [ps]; the loop then
    stands before [tail]. *)
Lemma getMultiplePositions_loop_reads device k : forall pre ps tail m s tr,
  Quiet s -> length ps = length pre ->
  Forall (fun p => 0 <= p <= 65535) ps ->
  run (getMultiplePositions_loop device (pre ++ tail) m k s)
      (flat_map readOk ps ++ tr) =
  run (getMultiplePositions_loop device tail (collect m pre ps) k
         (serve_reads device k m pre ps tail s)) tr.
Proof.
  induction pre as [|c pre IH]; intros [|p ps] tail m s tr HQ Hlen Hps;
    simpl in Hlen; try discriminate.
  - reflexivity.
  - injection Hlen as Hlen. inversion Hps as [|? ? Hp Hps']; subst.
    change (flat_map readOk (p :: ps)) with (readOk p ++ flat_map readOk ps).
    rewrite <- app_assoc. change ((c :: pre) ++ tail) with (c :: pre ++ tail).
    rewrite getMultiplePositions_loop_read by assumption.
    rewrite IH by (auto using Quiet_served). reflexivity.
Qed.

(** The read of a channel fails through a write error. *)
Lemma getMultiplePositions_loop_write_error device c rest m op s e :
  Quiet s ->
  exists s2,
    step (getMultiplePositions_loop device (c :: rest) m (KPromise op) s)
         (WriteDone (Some e)) = Some s2 /\
    outcomes s2 =
      outcomes s ++ [(op, Rejected (GetPositionFailed device c (WriteError e)))] /\
    written s2 =
      written (getMultiplePositions_loop device (c :: rest) m (KPromise op) s) /\
    Quiet s2.
Proof.
  intros HQ. rewrite getMultiplePositions_loop_issue by assumption.
  destruct HQ as [Hopen Hq Hh Hb Hw Ht].
  destruct s as [o q hs b w t wr oc enq sh nr nh no]. simpl in *. subst.
  eexists. split; [reflexivity|]. simpl.
  split; [reflexivity|]. split; [reflexivity|]. constructor; reflexivity.
Qed.

(** The read of a channel fails through the response timeout. *)
Lemma getMultiplePositions_loop_timeout device c rest m op s :
  Quiet s ->
  exists s2,
    run (getMultiplePositions_loop device (c :: rest) m (KPromise op) s)
        [WriteDone None; Timeout (nextHandler s)] = Some s2 /\
    outcomes s2 =
      outcomes s ++ [(op, Rejected (GetPositionFailed device c ResponseTimeout))] /\
    written s2 =
      written (getMultiplePositions_loop device (c :: rest) m (KPromise op) s) /\
    Quiet s2.
Proof.
  intros HQ. rewrite getMultiplePositions_loop_issue by assumption.
  destruct HQ as [Hopen Hq Hh Hb Hw Ht].
  destruct s as [o q hs b w t wr oc enq sh nr nh no]. simpl in *. subst.
  simpl. unfold find_timer. simpl. rewrite Nat.eqb_refl.
  eexists. split; [reflexivity|].
  unfold onTimeout, clearTimeout, positionRequest. simpl.
  rewrite !Nat.eqb_refl. simpl.
  split; [reflexivity|]. split; [reflexivity|]. constructor; reflexivity.
Qed.

(** Whatever the state, the [await] inside the loop goes on with the next
    channel when the read resolves, and only then; when the read is rejected
    it rejects the call with the device and the channel and issues nothing. *)
Lemma await_position_resolved device c rest m k p s :
  settle (KAwaitPosition device c rest m k) (Resolved (VNum p)) s =
  getMultiplePositions_loop device rest (<[c := p]> m) k s.
Proof. reflexivity. Qed.

Lemma await_position_rejected device c rest m k e s :
  settle (KAwaitPosition device c rest m k) (Rejected e) s =
  log_outcome (promise_of k)
    (Rejected (rejection k (GetPositionFailed device c e))) s.
Proof. simpl. apply settle_rejected. Qed.

(** C6.  Called on an open, idle engine, [getMultiplePositions] reads the
    listed channels one after the other.  After the reads of the first
    channels have succeeded, nothing but the frames of those reads and of the
    read of the next channel has been written, and that read is the only
    request queued.  When no channel is left the call resolves with the
    object mapping each channel to its position.  When the read of the next
    channel fails, through a write error or through the response timeout,
    the call is rejected with an error naming the device and that channel,
    nothing more is written and the engine is idle: the channels behind it
    are not read. *)
Theorem getMultiplePositions_sequential (s : master) (device : Z)
    (pre ps tail : list Z) :
  Quiet s ->
  length ps = length pre ->
  Forall (fun p => 0 <= p <= 65535) ps ->
  exists s1,
    run s (Call (GetMultiplePositions device (pre ++ tail)) :: flat_map readOk ps)
      = Some s1 /\
    frames (written s1) =
      frames (written s) ++ map (getPositionFrame device) (pre ++ take 1 tail) /\
    match tail with
    | [] =>
        outcomes s1 =
          outcomes s ++ [(nextOp s, Resolved (VPositions (collect ∅ pre ps)))] /\
        Quiet s1
    | channel :: rest =>
        outcomes s1 = outcomes s /\
        (exists r, requestQueue s1 = [r] /\ writing s1 = [r] /\
                   frame r = getPositionFrame device channel) /\
        (forall e, exists s2,
            step s1 (WriteDone (Some e)) = Some s2 /\
            outcomes s2 =
              outcomes s ++
              [(nextOp s,
                Rejected (GetPositionFailed device channel (WriteError e)))] /\
            written s2 = written s1 /\
            Quiet s2) /\
        (exists s2,
            run s1 [WriteDone None; Timeout (nextHandler s1)] = Some s2 /\
            outcomes s2 =
              outcomes s ++
              [(nextOp s,
                Rejected (GetPositionFailed device channel ResponseTimeout))] /\
            written s2 = written s1 /\
            Quiet s2)
    end.
Proof.
  intros HQ Hlen Hps.
  set (k := KPromise (nextOp s)).
  set (sq := serve_reads device k ∅ pre ps tail (bump_nextOp s)).
  destruct (serve_reads_facts device k pre ps tail ∅ (bump_nextOp s)
              (Quiet_bump_nextOp s HQ) Hlen) as (HQq & Ho & Hn & Hw).
  fold sq in HQq, Ho, Hn, Hw. simpl in Ho, Hn, Hw.
  exists (getMultiplePositions_loop device tail (collect ∅ pre ps) k sq).
  split.
  { change (run s (Call (GetMultiplePositions device (pre ++ tail))
                     :: flat_map readOk ps))
      with (run (getMultiplePositions_loop device (pre ++ tail) ∅ k (bump_nextOp s))
              (flat_map readOk ps)).
    rewrite <- (app_nil_r (flat_map readOk ps)).
    rewrite getMultiplePositions_loop_reads by (auto using Quiet_bump_nextOp).
    reflexivity. }
  destruct tail as [|channel rest].
  - unfold getMultiplePositions_loop. simpl.
    rewrite app_nil_r, Hw, Ho. repeat split; auto; apply HQq.
  - pose proof (getMultiplePositions_loop_issue device channel rest
                  (collect ∅ pre ps) k sq HQq) as Hissue.
    simpl in Hissue.
    split; [|split; [|split; [|split]]].
    + rewrite Hissue. simpl. unfold frames in *. rewrite !map_app, Hw. simpl.
      now rewrite <- app_assoc.
    + rewrite Hissue. simpl. exact Ho.
    + rewrite Hissue. simpl. rewrite (quiet_writing sq HQq).
      eexists. repeat split; reflexivity.
    + intros e.
      destruct (getMultiplePositions_loop_write_error device channel rest
                  (collect ∅ pre ps) (nextOp s) sq e HQq) as (s2 & Hs & Ho2 & Hw2 & HQ2).
      exists s2. rewrite <- Ho. auto.
    + destruct (getMultiplePositions_loop_timeout device channel rest
                  (collect ∅ pre ps) (nextOp s) sq HQq) as (s2 & Hs & Ho2 & Hw2 & HQ2).
      exists s2. rewrite <- Ho.
      replace (nextHandler (getMultiplePositions_loop device (channel :: rest)
                              (collect ∅ pre ps) k sq))
        with (nextHandler sq) by (rewrite Hissue; reflexivity).
      auto.
Qed.

Lemma getMultiplePositions_sequential_witness :
  exists s1,
    run (init true)
      (Call (GetMultiplePositions 5 ([0] ++ [1; 2])) :: flat_map readOk [5904])
      = Some s1 /\
    frames (written s1) =
      frames (written (init true)) ++
      map (getPositionFrame 5) ([0] ++ take 1 [1; 2]) /\
    outcomes s1 = outcomes (init true) /\
    (exists r, requestQueue s1 = [r] /\ writing s1 = [r] /\
               frame r = getPositionFrame 5 1) /\
    (forall e, exists s2,
        step s1 (WriteDone (Some e)) = Some s2 /\
        outcomes s2 =
          outcomes (init true) ++
          [(nextOp (init true),
            Rejected (GetPositionFailed 5 1 (WriteError e)))] /\
        written s2 = written s1 /\
        Quiet s2) /\
    (exists s2,
        run s1 [WriteDone None; Timeout (nextHandler s1)] = Some s2 /\
        outcomes s2 =
          outcomes (init true) ++
          [(nextOp (init true),
            Rejected (GetPositionFailed 5 1 ResponseTimeout))] /\
        written s2 = written s1 /\
        Quiet s2).
Proof.
  apply (getMultiplePositions_sequential (init true) 5 [0] [5904] [1; 2]).
  - constructor; reflexivity.
  - reflexivity.
  - repeat constructor; lia.
Defined.

(** * Further properties *)

(** ** Codec *)

Lemma to_int32_mod (z m : Z) :
  (m | 2 ^ 32) -> 0 < m -> JS.to_int32 z mod m = z mod m.
Proof.
  intros Hdiv Hm. unfold JS.to_int32.
  destruct (_ <? _).
  - now apply Z.mod_mod_divide.
  - destruct Hdiv as [q Hq].
    replace (z mod 2 ^ 32 - 2 ^ 32) with (z mod 2 ^ 32 + (- q) * m) by lia.
    rewrite Z.mod_add by lia. apply Z.mod_mod_divide. now exists q.
Qed.

Lemma to_int32_range (z : Z) : -2 ^ 31 <= JS.to_int32 z < 2 ^ 31.
Proof.
  unfold JS.to_int32. pose proof (Z.mod_pos_bound z (2 ^ 32)).
  destruct (Z.ltb_spec (z mod 2 ^ 32) (2 ^ 31)); lia.
Qed.

Lemma land_127 (p : Z) : Z.land p 0x7F = p mod 128.
Proof. change 0x7F with (Z.ones 7). now rewrite Z.land_ones by lia. Qed.

Lemma targetLow_mod (target : Z) : targetLow target = target mod 128.
Proof.
  unfold targetLow, JS.and. rewrite (to_int32_small 127) by lia.
  rewrite land_127. apply to_int32_mod; [|lia]. exists (2 ^ 25). lia.
Qed.

Lemma targetHigh_mod (target : Z) : targetHigh target = (target / 128) mod 128.
Proof.
  unfold targetHigh, JS.and, JS.shr. rewrite (to_int32_small 127) by lia.
  change (7 mod 32) with 7. rewrite land_127.
  rewrite Z.shiftr_div_pow2 by lia. change (2 ^ 7) with 128.
  pose proof (to_int32_range target) as Hr.
  rewrite (to_int32_small (JS.to_int32 target / 128)).
  2:{ split.
      - apply Z.div_le_lower_bound; lia.
      - apply Z.div_lt_upper_bound; lia. }
  assert (H : forall x, (x / 128) mod 128 = (x mod 16384) / 128).
  { intros x. change 16384 with (128 * 128).
    rewrite Z.rem_mul_r by lia.
    rewrite Z.mul_comm, Z.div_add by lia.
    rewrite (Z.div_small (x mod 128)) by (apply Z.mod_pos_bound; lia). lia. }
  rewrite !H. f_equal. apply to_int32_mod; [|lia]. exists (2 ^ 18). lia.
Qed.

(** X1.  The two payload bytes of [setTarget] determine a 14-bit target:
    for every target in [0, 16383], recombining the high and the low seven
    bits gives the target back. *)
Theorem target_bytes_round_trip (target : Z) :
  0 <= target <= 16383 ->
  Z.lor (Z.shiftl (Z.land (targetHigh target) 0x7F) 7)
        (Z.land (targetLow target) 0x7F) = target.
Proof.
  intros Ht. rewrite targetLow_mod, targetHigh_mod, !land_127.
  rewrite !Z.mod_mod by lia.
  rewrite (Z.mod_small (target / 128)).
  2:{ split; [apply Z.div_pos; lia|apply Z.div_lt_upper_bound; lia]. }
  rewrite <- Z.add_nocarry_lor.
  - rewrite Z.shiftl_mul_pow2 by lia. change (2 ^ 7) with 128.
    pose proof (Z.div_mod target 128). lia.
  - apply Z.bits_inj'. intros n Hn. rewrite Z.land_spec, Z.bits_0.
    destruct (Z.lt_ge_cases n 7).
    + rewrite Z.shiftl_spec_low by lia. reflexivity.
    + change 128 with (2 ^ 7) at 2.
      rewrite (Z.mod_pow2_bits_high target 7 n) by lia.
      apply andb_false_r.
Qed.

Lemma target_bytes_round_trip_witness :
  Z.lor (Z.shiftl (Z.land (targetHigh 6000) 0x7F) 7)
        (Z.land (targetLow 6000) 0x7F) = 6000.
Proof. apply (target_bytes_round_trip 6000). lia. Defined.

(** X2.  [setTarget] builds a frame of six bytes for any integers: device
    and channel are kept modulo 256, and only the low fourteen bits of the
    target reach the frame, seven per payload byte, so both payload bytes
    have their high bit clear. *)
Theorem setTargetFrame_bytes (device channel target : Z) :
  setTargetFrame device channel target =
    [0xAA; device mod 256; 0x04; channel mod 256;
     target mod 128; (target / 128) mod 128] /\
  setTargetFrame device channel target =
    setTargetFrame device channel (target mod 16384) /\
  0 <= target mod 128 < 128 /\ 0 <= (target / 128) mod 128 < 128.
Proof.
  assert (H : forall t, setTargetFrame device channel t =
            [0xAA; device mod 256; 0x04; channel mod 256;
             t mod 128; (t / 128) mod 128]).
  { intros t. unfold setTargetFrame. simpl map.
    rewrite targetLow_mod, targetHigh_mod. unfold JS.uint8.
    rewrite (Z.mod_small (t mod 128) 256)
      by (pose proof (Z.mod_pos_bound t 128); lia).
    rewrite (Z.mod_small ((t / 128) mod 128) 256)
      by (pose proof (Z.mod_pos_bound (t / 128) 128); lia).
    reflexivity. }
  split; [apply H|]. split.
  - rewrite !H. f_equal. f_equal. f_equal. f_equal. f_equal.
    + symmetry. apply Z.mod_mod_divide. exists 128. lia.
    + f_equal. change 16384 with (128 * 128).
      rewrite Z.rem_mul_r by lia.
      rewrite (Z.mul_comm 128), Z.div_add by lia.
      rewrite (Z.div_small (target mod 128)) by (apply Z.mod_pos_bound; lia).
      rewrite Z.add_0_l. now rewrite Z.mod_mod by lia.
  - split; apply Z.mod_pos_bound; lia.
Qed.

(** X3.  Whatever two bytes the device sends, [getPosition] decodes a
    position in [0, 65535], and the position determines the two bytes. *)
Theorem decodePosition_range (lo hi : Z) :
  0 <= lo < 256 -> 0 <= hi < 256 ->
  0 <= decodePosition [lo; hi] <= 65535 /\
  positionBytes (decodePosition [lo; hi]) = [lo; hi].
Proof.
  intros Hlo Hhi. rewrite decodePosition_bytes by assumption.
  split; [lia|]. unfold positionBytes. rewrite land_255, shiftr_8.
  f_equal; [|f_equal].
  - rewrite Z.add_comm, Z.mod_add by lia. apply Z.mod_small. lia.
  - rewrite Z.add_comm, Z.div_add by lia. rewrite Z.div_small by lia. lia.
Qed.

Lemma decodePosition_range_witness :
  0 <= decodePosition [0x10; 0x17] <= 65535 /\
  positionBytes (decodePosition [0x10; 0x17]) = [0x10; 0x17].
Proof. apply (decodePosition_range 0x10 0x17); lia. Defined.

Lemma writeTargets_app (targets : list target_arg) :
  forall (pre mid : list Z) (i : nat),
    length pre = (5 + i * 2)%nat ->
    length mid = (length targets * 2)%nat ->
    writeTargets (pre ++ mid) i targets = pre ++ flat_map targetBytes targets.
Proof.
  induction targets as [|t ts IH]; intros pre mid i Hpre Hmid; simpl in *.
  - destruct mid; [reflexivity|discriminate].
  - destruct mid as [|a [|b mid']]; simpl in Hmid; try lia.
    unfold writeTarget.
    replace (5 + i * 2)%nat with (length pre + 0)%nat by lia.
    rewrite insert_app_r. simpl.
    replace (length pre + 0 + 1)%nat with (length pre + 1)%nat by lia.
    rewrite insert_app_r. simpl.
    change (pre ++ ?x :: ?y :: mid') with (pre ++ [x; y] ++ mid').
    rewrite app_assoc. rewrite IH.
    + now rewrite <- app_assoc.
    + rewrite length_app. simpl. lia.
    + lia.
Qed.

Lemma fillMultipleTargetsFrame_eq (frame0 : list Z) (device channel : Z)
    (targets : list target_arg) :
  length frame0 = (5 + length targets * 2)%nat ->
  fillMultipleTargetsFrame frame0 device channel targets =
    [0xAA; device mod 256; 0x1F; Z.of_nat (length targets) mod 256;
     channel mod 256] ++ flat_map targetBytes targets.
Proof.
  intros H0. unfold fillMultipleTargetsFrame.
  destruct frame0 as [|b0 [|b1 [|b2 [|b3 [|b4 mid]]]]]; simpl in H0; try lia.
  simpl.
  apply (writeTargets_app targets
           [170; JS.uint8 device; 31; JS.uint8 (Z.of_nat (length targets));
            JS.uint8 channel] mid 0); simpl; lia.
Qed.

(** X4.  [setMultipleTargets] overwrites every cell of the buffer it
    allocates: whatever the buffer held, the frame is the header
    [0xAA, device, 0x1F, count, first channel] followed by the two payload
    bytes of each target in order.  The count is kept modulo 256. *)
Theorem fillMultipleTargetsFrame_layout (requestFrame : list Z)
    (device channel : Z) (targets : list target_arg) :
  length requestFrame = (5 + length targets * 2)%nat ->
  fillMultipleTargetsFrame requestFrame device channel targets =
    [0xAA; device mod 256; 0x1F; Z.of_nat (length targets) mod 256;
     channel mod 256] ++ flat_map targetBytes targets /\
  setMultipleTargetsFrame device channel targets =
    fillMultipleTargetsFrame requestFrame device channel targets.
Proof.
  intros Hlen. split; [now apply fillMultipleTargetsFrame_eq|].
  rewrite (fillMultipleTargetsFrame_eq requestFrame) by assumption.
  change (setMultipleTargetsFrame device channel targets) with
    (fillMultipleTargetsFrame (replicate (5 + length targets * 2) 0)
       device channel targets).
  apply fillMultipleTargetsFrame_eq. apply length_replicate.
Qed.

Lemma fillMultipleTargetsFrame_layout_witness :
  fillMultipleTargetsFrame [1; 2; 3; 4; 5; 6; 7; 8; 9] 12 3 [TNum 6000; TNum 4000] =
    [0xAA; 12 mod 256; 0x1F; Z.of_nat (length [TNum 6000; TNum 4000]) mod 256;
     3 mod 256] ++ flat_map targetBytes [TNum 6000; TNum 4000] /\
  setMultipleTargetsFrame 12 3 [TNum 6000; TNum 4000] =
    fillMultipleTargetsFrame [1; 2; 3; 4; 5; 6; 7; 8; 9] 12 3 [TNum 6000; TNum 4000].
Proof.
  apply (fillMultipleTargetsFrame_layout [1; 2; 3; 4; 5; 6; 7; 8; 9] 12 3
           [TNum 6000; TNum 4000]).
  reflexivity.
Defined.

Lemma targetBytes_shapes (t : Z) (channel target : jsval) :
  targetBytes (TNum t) = [t mod 128; (t / 128) mod 128] /\
  targetBytes (TObj channel target) = [0; 0].
Proof.
  split; [|reflexivity].
  unfold targetBytes. simpl target_int32.
  rewrite targetLow_mod, targetHigh_mod. unfold JS.uint8.
  assert (Hlo : JS.to_int32 t mod 128 = t mod 128).
  { apply to_int32_mod; [|lia]. exists (2 ^ 25). lia. }
  assert (Hhi : (JS.to_int32 t / 128) mod 128 = (t / 128) mod 128).
  { assert (H : forall x, (x / 128) mod 128 = (x mod 16384) / 128).
    { intros x. change 16384 with (128 * 128).
      rewrite Z.rem_mul_r by lia.
      rewrite Z.mul_comm, Z.div_add by lia.
      rewrite (Z.div_small (x mod 128)) by (apply Z.mod_pos_bound; lia). lia. }
    rewrite !H. f_equal. apply to_int32_mod; [|lia]. exists (2 ^ 18). lia. }
  rewrite Hlo, Hhi.
  rewrite (Z.mod_small (t mod 128) 256)
    by (pose proof (Z.mod_pos_bound t 128); lia).
  rewrite (Z.mod_small ((t / 128) mod 128) 256)
    by (pose proof (Z.mod_pos_bound (t / 128) 128); lia).
  reflexivity.
Qed.

(** X5.  The bytes of the frame of [setMultipleTargets], for any integers
    and any elements: a numeric element gives the low fourteen bits of the
    number, seven per byte; an element that is an object, the shape
    [trySetMultipleTargets] destructures, is sent as target 0. *)
Theorem setMultipleTargetsFrame_bytes (device channel : Z)
    (targets : list target_arg) :
  setMultipleTargetsFrame device channel targets =
    [0xAA; device mod 256; 0x1F; Z.of_nat (length targets) mod 256;
     channel mod 256] ++
    flat_map (fun target =>
                match target with
                | TNum t => [t mod 128; (t / 128) mod 128]
                | TObj _ _ => [0; 0]
                end) targets.
Proof.
  change (setMultipleTargetsFrame device channel targets) with
    (fillMultipleTargetsFrame (replicate (5 + length targets * 2) 0)
       device channel targets).
  rewrite fillMultipleTargetsFrame_eq by apply length_replicate.
  f_equal. induction targets as [|[t|c v] ts IH]; [reflexivity| |].
  - cbn [flat_map]. rewrite IH.
    now rewrite (proj1 (targetBytes_shapes t VUndef VUndef)).
  - cbn [flat_map]. rewrite IH.
    now rewrite (proj2 (targetBytes_shapes 0 c v)).
Qed.

(** ** Operations on an idle engine *)

Lemma Quiet_forgotten r s : Quiet s -> Quiet (forgotten r s).
Proof. intros []. constructor; auto. Qed.

(** A request that expects no response, issued on an idle engine and written
    successfully: its continuation runs in the idle state that follows. *)
Lemma forget_run fr k s tr :
  Quiet s ->
  let r := mkRequest (nextRequest s) fr (CbForget k) in
  run (reject_with k (requestAndForget fr k s) s) (WriteDone None :: tr) =
  run (settle k (Resolved VUndef) (forgotten r s)) tr.
Proof.
  intros [Hopen Hq Hh Hb Hw Ht]. unfold requestAndForget.
  rewrite request_idle by assumption.
  destruct s as [o q hs b w t wr oc enq sh nr nh no]. simpl in *. subst.
  reflexivity.
Qed.

(** X6.  [setTarget] and [setMultipleTargets] on an open, idle engine: the
    call writes its frame at once and stays pending; when the write
    completes the call resolves, no response handler was ever created, and
    the engine is idle again. *)
Theorem forget_call_resolves_on_write (s : master) (c : api_call) (fr : list Z) :
  Quiet s ->
  forget_frame c = Some fr ->
  exists s1 s2,
    step s (Call c) = Some s1 /\
    frames (written s1) = frames (written s) ++ [fr] /\
    outcomes s1 = outcomes s /\
    responseHandlers s1 = [] /\
    step s1 (WriteDone None) = Some s2 /\
    outcomes s2 = outcomes s ++ [(nextOp s, Resolved VUndef)] /\
    written s2 = written s1 /\
    Quiet s2.
Proof.
  intros [Hopen Hq Hh Hb Hw Ht] Hfr.
  destruct s as [o q hs b w t wr oc enq sh nr nh no]. simpl in *. subst.
  destruct c; simpl in Hfr; try discriminate; injection Hfr as <-;
    (do 2 eexists; split; [reflexivity|]; simpl;
     unfold frames; rewrite map_app; simpl;
     repeat (split; [reflexivity|]); constructor; reflexivity).
Qed.

Lemma forget_call_resolves_on_write_witness :
  exists s1 s2,
    step (init true) (Call (SetTarget 12 0 6000)) = Some s1 /\
    frames (written s1) =
      frames (written (init true)) ++ [setTargetFrame 12 0 6000] /\
    outcomes s1 = outcomes (init true) /\
    responseHandlers s1 = [] /\
    step s1 (WriteDone None) = Some s2 /\
    outcomes s2 =
      outcomes (init true) ++ [(nextOp (init true), Resolved VUndef)] /\
    written s2 = written s1 /\
    Quiet s2.
Proof.
  apply (forget_call_resolves_on_write (init true) (SetTarget 12 0 6000)
           (setTargetFrame 12 0 6000)).
  - constructor; reflexivity.
  - reflexivity.
Defined.

(** X7.  When the write of a request fails and nothing is queued behind it,
    the call is rejected with the error of the port and the engine is idle:
    the next operation is written as usual. *)
Theorem lone_write_error_leaves_engine_idle (s : master) (c : api_call)
    (fr : list Z) (e : nat) :
  Quiet s ->
  frame_of_call c = Some fr ->
  exists s',
    run s [Call c; WriteDone (Some e)] = Some s' /\
    outcomes s' = outcomes s ++ [(nextOp s, Rejected (WriteError e))] /\
    frames (written s') = frames (written s) ++ [fr] /\
    shifted s' = shifted s ++ [(nextRequest s, ByWriteError)] /\
    Quiet s'.
Proof.
  intros [Hopen Hq Hh Hb Hw Ht] Hfr.
  destruct s as [o q hs b w t wr oc enq sh nr nh no]. simpl in *. subst.
  destruct c; simpl in Hfr; try discriminate; injection Hfr as <-;
    (eexists; split; [reflexivity|]; simpl;
     unfold frames; rewrite map_app; simpl;
     repeat (split; [reflexivity|]); constructor; reflexivity).
Qed.

Lemma lone_write_error_leaves_engine_idle_witness :
  exists s',
    run (init true) [Call (GetPosition 12 0); WriteDone (Some 7%nat)] = Some s' /\
    outcomes s' =
      outcomes (init true) ++ [(nextOp (init true), Rejected (WriteError 7))] /\
    frames (written s') =
      frames (written (init true)) ++ [getPositionFrame 12 0] /\
    shifted s' = shifted (init true) ++ [(nextRequest (init true), ByWriteError)] /\
    Quiet s'.
Proof.
  apply (lone_write_error_leaves_engine_idle (init true) (GetPosition 12 0)
           (getPositionFrame 12 0) 7%nat).
  - constructor; reflexivity.
  - reflexivity.
Defined.

(** A read issued on an idle engine and answered with [p]: its continuation
    runs in the idle state that follows. *)
Lemma getPosition_read device channel k s p tr :
  Quiet s -> 0 <= p <= 65535 ->
  let r := mkRequest (nextRequest s) (getPositionFrame device channel)
             (CbResponse 2 (DoneGetPosition k)) in
  run (reject_with k (getPosition device channel k s) s) (readOk p ++ tr) =
  run (settle k (Resolved (VNum p)) (served r s)) tr.
Proof.
  intros [Hopen Hq Hh Hb Hw Ht] Hp. unfold getPosition, requestAndResponse.
  rewrite request_idle by assumption.
  destruct s as [o q hs b w t wr oc enq sh nr nh no]. simpl in *. subst.
  unfold readOk. simpl.
  rewrite (onSerialPortData_satisfied _ _
             (mkHandler nh 2 (DoneGetPosition k)) []) by (simpl; auto).
  unfold clearTimeout. simpl.
  rewrite Nat.eqb_refl.
  cbv [handlerCallback invokeDone complete shift_request writeNextRequest
       set_responseBuffer set_timers set_responseHandlers bump_nextHandler
       set_writing serialPort_write log_enqueued log_written log_shifted
       set_requestQueue done negb
       isOpen requestQueue responseHandlers responseBuffer writing timers
       written outcomes enqueued shifted nextRequest nextHandler nextOp rid].
  change [Z.land p 255; Z.shiftr p 8] with (positionBytes p).
  rewrite decodePosition_positionBytes by assumption.
  reflexivity.
Qed.

(** X8.  [trySetTarget] on an open, idle engine writes the set-target frame,
    then the get-position frame, and compares the position read back with
    the target as the caller gave it: equal, the call resolves; different,
    it is rejected with an error carrying the device, the channel, the
    target and the position. *)
Theorem trySetTarget_verifies (s : master) (device channel target p : Z) :
  Quiet s ->
  0 <= p <= 65535 ->
  exists s',
    run s [Call (TrySetTarget device channel target);
           WriteDone None; WriteDone None; Data (positionBytes p)] = Some s' /\
    frames (written s') =
      frames (written s) ++
      [setTargetFrame device channel target; getPositionFrame device channel] /\
    outcomes s' =
      outcomes s ++
      [(nextOp s,
        if p =? target then Resolved VUndef
        else Rejected (TargetMismatch device (VNum channel) (VNum target) (VNum p)))] /\
    Quiet s'.
Proof.
  intros HQ Hp.
  set (op := nextOp s).
  set (k2 := KThenCheckTarget device channel target (KPromise op)).
  set (k1 := KThenGetPosition device channel k2).
  set (s0 := bump_nextOp s).
  assert (HQ0 : Quiet s0) by (destruct HQ; constructor; auto).
  set (r1 := mkRequest (nextRequest s0) (setTargetFrame device channel target)
               (CbForget k1)).
  set (sF := forgotten r1 s0).
  assert (HQF : Quiet sF) by now apply Quiet_forgotten.
  set (r2 := mkRequest (nextRequest sF) (getPositionFrame device channel)
               (CbResponse 2 (DoneGetPosition k2))).
  exists (settle k2 (Resolved (VNum p)) (served r2 sF)).
  split.
  { change (run s [Call (TrySetTarget device channel target); WriteDone None;
                   WriteDone None; Data (positionBytes p)])
      with (run (reject_with k1
                   (requestAndForget (setTargetFrame device channel target) k1 s0) s0)
              (WriteDone None :: readOk p ++ [])).
    rewrite forget_run by assumption.
    exact (getPosition_read device channel k2 sF p [] HQF Hp). }
  assert (Hsettle : forall s1,
             settle k2 (Resolved (VNum p)) s1 =
             log_outcome op
               (if p =? target then Resolved VUndef
                else Rejected (TargetMismatch device (VNum channel)
                                 (VNum target) (VNum p))) s1).
  { intros s1. subst k2. cbn [settle strict_neq]. now destruct (p =? target). }
  rewrite Hsettle.
  split; [|split].
  - unfold frames. cbn [written log_outcome served forgotten sF s0 bump_nextOp].
    rewrite !map_app, <- app_assoc. reflexivity.
  - reflexivity.
  - destruct HQ. constructor; auto.
Qed.

Lemma trySetTarget_verifies_witness :
  exists s',
    run (init true) [Call (TrySetTarget 1 2 4000);
           WriteDone None; WriteDone None; Data (positionBytes 3999)] = Some s' /\
    frames (written s') =
      frames (written (init true)) ++
      [setTargetFrame 1 2 4000; getPositionFrame 1 2] /\
    outcomes s' =
      outcomes (init true) ++
      [(nextOp (init true),
        if 3999 =? 4000 then Resolved VUndef
        else Rejected (TargetMismatch 1 (VNum 2) (VNum 4000) (VNum 3999)))] /\
    Quiet s'.
Proof.
  apply (trySetTarget_verifies (init true) 1 2 4000 3999).
  - constructor; reflexivity.
  - lia.
Defined.

Lemma Quiet_write_failed r s : Quiet s -> Quiet (write_failed r s).
Proof. intros []. constructor; auto. Qed.

(** The write of a request issued on an idle engine fails. *)
Lemma request_write_error fr cb s e :
  Quiet s ->
  let r := mkRequest (nextRequest s) fr cb in
  forall s0, request fr cb s = inr s0 ->
  step s0 (WriteDone (Some e)) =
  Some (requestCallback cb (Some (WriteError e)) (write_failed r s)).
Proof.
  intros [Hopen Hq Hh Hb Hw Ht] r s0. rewrite request_idle by assumption.
  intros [= <-].
  destruct s as [o q hs b w t wr oc enq sh nr nh no]. simpl in *. subst.
  reflexivity.
Qed.

(** The timer of the only handler fires. *)
Lemma timeout_single s h k :
  timers s = [h] -> responseHandlers s = [h] -> done h = DoneGetPosition k ->
  step s (Timeout (hid h)) =
  Some (settle k (Rejected ResponseTimeout)
          (complete (set_responseHandlers [] (set_timers [] s)))).
Proof.
  intros Ht Hh Hd. unfold step, find_timer. rewrite Ht. simpl.
  rewrite Nat.eqb_refl.
  unfold onTimeout, clearTimeout, handlerCallback, invokeDone. rewrite Hd.
  simpl. rewrite Ht, Hh. simpl. rewrite !Nat.eqb_refl. reflexivity.
Qed.

(** A read issued on an idle engine is written and never answered. *)
Lemma getPosition_timeout device channel k s :
  Quiet s ->
  let r := mkRequest (nextRequest s) (getPositionFrame device channel)
             (CbResponse 2 (DoneGetPosition k)) in
  run (reject_with k (getPosition device channel k s) s)
      [WriteDone None; Timeout (nextHandler s)] =
  Some (settle k (Rejected ResponseTimeout) (served r s)).
Proof.
  intros [Hopen Hq Hh Hb Hw Ht] r. unfold getPosition, requestAndResponse.
  rewrite request_idle by assumption. fold r. cbn [reject_with].
  set (s0 := serialPort_write r (log_enqueued r (set_requestQueue [r] s))).
  set (h := mkHandler (nextHandler s) 2 (DoneGetPosition k)).
  set (s1 := set_responseHandlers [h]
               (set_timers [h] (bump_nextHandler (set_writing [] s0)))).
  assert (H1 : step s0 (WriteDone None) = Some s1).
  { unfold step, s0. simpl writing. rewrite Hw. simpl.
    unfold s1, s0. simpl. rewrite Hh, Ht. reflexivity. }
  assert (H2 : step s1 (Timeout (nextHandler s)) =
               Some (settle k (Rejected ResponseTimeout)
                       (complete (set_responseHandlers [] (set_timers [] s1)))))
    by (apply (timeout_single s1 h k); reflexivity).
  cbn [run]. rewrite H1, H2. do 2 f_equal.
  unfold complete, shift_request. simpl. unfold served, log_shifted. simpl.
  rewrite Hopen, Hb. reflexivity.
Qed.

(** X9.  When the write of [trySetTarget] fails, the call is rejected with
    the error of the port and the position is never requested; when the
    readback times out, the call is rejected with the timeout error. *)
Theorem trySetTarget_failures (s : master) (device channel target : Z) (e : nat) :
  Quiet s ->
  (exists s',
     run s [Call (TrySetTarget device channel target); WriteDone (Some e)]
       = Some s' /\
     frames (written s') =
       frames (written s) ++ [setTargetFrame device channel target] /\
     outcomes s' = outcomes s ++ [(nextOp s, Rejected (WriteError e))] /\
     Quiet s') /\
  (exists s',
     run s [Call (TrySetTarget device channel target); WriteDone None;
            WriteDone None; Timeout (nextHandler s)] = Some s' /\
     frames (written s') =
       frames (written s) ++
       [setTargetFrame device channel target; getPositionFrame device channel] /\
     outcomes s' = outcomes s ++ [(nextOp s, Rejected ResponseTimeout)] /\
     Quiet s').
Proof.
  intros HQ.
  set (op := nextOp s).
  set (k2 := KThenCheckTarget device channel target (KPromise op)).
  set (k1 := KThenGetPosition device channel k2).
  set (s0 := bump_nextOp s).
  assert (HQ0 : Quiet s0) by (destruct HQ; constructor; auto).
  set (fr1 := setTargetFrame device channel target).
  set (r1 := mkRequest (nextRequest s0) fr1 (CbForget k1)).
  split.
  - exists (log_outcome op (Rejected (WriteError e)) (write_failed r1 s0)).
    split; [|split; [|split]].
    + change (run s [Call (TrySetTarget device channel target); WriteDone (Some e)])
        with (match step (reject_with k1 (requestAndForget fr1 k1 s0) s0)
                      (WriteDone (Some e)) with
              | Some s' => Some s' | None => None end).
      unfold requestAndForget.
      pose proof (request_idle fr1 (CbForget k1) s0
                    (quiet_open s0 HQ0) (quiet_queue s0 HQ0)) as Hreq.
      cbv zeta in Hreq. rewrite Hreq. cbn [reject_with].
      rewrite (request_write_error fr1 (CbForget k1) s0 e HQ0 _ Hreq).
      reflexivity.
    + unfold frames. cbn [written log_outcome write_failed].
      rewrite map_app. reflexivity.
    + reflexivity.
    + apply (Quiet_write_failed r1) in HQ0. destruct HQ0. constructor; auto.
  - set (sF := forgotten r1 s0).
    assert (HQF : Quiet sF) by now apply Quiet_forgotten.
    set (r2 := mkRequest (nextRequest sF) (getPositionFrame device channel)
                 (CbResponse 2 (DoneGetPosition k2))).
    exists (log_outcome op (Rejected ResponseTimeout) (served r2 sF)).
    split; [|split; [|split]].
    + change (run s [Call (TrySetTarget device channel target); WriteDone None;
                     WriteDone None; Timeout (nextHandler s)])
        with (run (reject_with k1 (requestAndForget fr1 k1 s0) s0)
                (WriteDone None :: [WriteDone None; Timeout (nextHandler sF)])).
      rewrite forget_run by assumption.
      exact (getPosition_timeout device channel k2 sF HQF).
    + unfold frames. cbn [written log_outcome served forgotten sF].
      rewrite !map_app, <- app_assoc. reflexivity.
    + reflexivity.
    + apply (Quiet_served r2) in HQF. destruct HQF. constructor; auto.
Qed.

Lemma trySetTarget_failures_witness :
  (exists s',
     run (init true) [Call (TrySetTarget 1 2 4000); WriteDone (Some 7%nat)]
       = Some s' /\
     frames (written s') =
       frames (written (init true)) ++ [setTargetFrame 1 2 4000] /\
     outcomes s' =
       outcomes (init true) ++ [(nextOp (init true), Rejected (WriteError 7))] /\
     Quiet s') /\
  (exists s',
     run (init true) [Call (TrySetTarget 1 2 4000); WriteDone None;
            WriteDone None; Timeout (nextHandler (init true))] = Some s' /\
     frames (written s') =
       frames (written (init true)) ++
       [setTargetFrame 1 2 4000; getPositionFrame 1 2] /\
     outcomes s' =
       outcomes (init true) ++ [(nextOp (init true), Rejected ResponseTimeout)] /\
     Quiet s').
Proof.
  apply (trySetTarget_failures (init true) 1 2 4000 7%nat).
  constructor; reflexivity.
Defined.

Lemma imap_index_map {A B C} (g : A -> B) (l : list A) :
  forall f : nat -> C,
    imap (fun i _ => f i) (map g l) = imap (fun i _ => f i) l.
Proof.
  induction l as [|x l IH]; intros f; simpl; [reflexivity|].
  f_equal. exact (IH (fun i => f (S i))).
Qed.

(** X10.  With numeric targets the verification of [trySetMultipleTargets]
    accepts any readback: on an open, idle engine, once the batched write and
    the read of every channel have succeeded, the call resolves whatever
    positions were read. *)
Theorem trySetMultipleTargets_numbers_resolve (s : master) (device channel : Z)
    (targets ps : list Z) :
  Quiet s ->
  length ps = length targets ->
  Forall (fun p => 0 <= p <= 65535) ps ->
  exists s',
    run s (Call (TrySetMultipleTargets device channel (map TNum targets))
             :: WriteDone None :: flat_map readOk ps) = Some s' /\
    frames (written s') =
      frames (written s) ++
      setMultipleTargetsFrame device channel (map TNum targets)
      :: map (getPositionFrame device)
           (imap (fun i _ => channel + Z.of_nat i) targets) /\
    outcomes s' = outcomes s ++ [(nextOp s, Resolved VUndef)] /\
    Quiet s'.
Proof.
  intros HQ Hlen Hps.
  set (op := nextOp s).
  set (channels := imap (fun i (_ : target_arg) => channel + Z.of_nat i)
                     (map TNum targets)).
  set (k2 := KThenCheckTargets device (map TNum targets) (KPromise op)).
  set (k1 := KThenGetMultiplePositions device channels k2).
  set (s0 := bump_nextOp s).
  assert (HQ0 : Quiet s0) by (destruct HQ; constructor; auto).
  set (fr := setMultipleTargetsFrame device channel (map TNum targets)).
  set (r1 := mkRequest (nextRequest s0) fr (CbForget k1)).
  set (sF := forgotten r1 s0).
  assert (HQF : Quiet sF) by now apply Quiet_forgotten.
  assert (Hch : length ps = length channels).
  { unfold channels. now rewrite length_imap, length_map. }
  assert (Hch' : channels = imap (fun i _ => channel + Z.of_nat i) targets).
  { unfold channels.
    exact (imap_index_map TNum targets (fun i => channel + Z.of_nat i)). }
  destruct (serve_reads_facts device k2 channels ps [] ∅ sF HQF Hch)
    as (HQq & Ho & Hn & Hw).
  set (sq := serve_reads device k2 ∅ channels ps [] sF) in *.
  exists (log_outcome op (Resolved VUndef) sq).
  split; [|split; [|split]].
  - change (run s (Call (TrySetMultipleTargets device channel (map TNum targets))
                     :: WriteDone None :: flat_map readOk ps))
      with (run (reject_with k1 (requestAndForget fr k1 s0) s0)
              (WriteDone None :: flat_map readOk ps)).
    rewrite forget_run by assumption.
    assert (E : settle k1 (Resolved VUndef) (forgotten r1 s0) =
                getMultiplePositions_loop device (channels ++ []) ∅ k2 sF)
      by (rewrite app_nil_r; reflexivity).
    cbv zeta. fold r1. rewrite E.
    rewrite <- (app_nil_r (flat_map readOk ps)).
    rewrite getMultiplePositions_loop_reads by assumption.
    fold sq. unfold getMultiplePositions_loop. simpl.
    now rewrite checkTargets_numbers.
  - simpl written. rewrite Hw, <- Hch'. unfold frames. simpl.
    rewrite map_app. simpl. now rewrite <- app_assoc.
  - simpl. now rewrite Ho.
  - destruct HQq. constructor; auto.
Qed.

Lemma trySetMultipleTargets_numbers_resolve_witness :
  exists s',
    run (init true)
      (Call (TrySetMultipleTargets 1 0 (map TNum [4000; 5000]))
         :: WriteDone None :: flat_map readOk [3999; 1]) = Some s' /\
    frames (written s') =
      frames (written (init true)) ++
      setMultipleTargetsFrame 1 0 (map TNum [4000; 5000])
      :: map (getPositionFrame 1)
           (imap (fun i _ => 0 + Z.of_nat i) [4000; 5000]) /\
    outcomes s' =
      outcomes (init true) ++ [(nextOp (init true), Resolved VUndef)] /\
    Quiet s'.
Proof.
  apply (trySetMultipleTargets_numbers_resolve (init true) 1 0
           [4000; 5000] [3999; 1]).
  - constructor; reflexivity.
  - reflexivity.
  - repeat constructor; lia.
Defined.

(** ** Deliveries *)

(** A delivery that leaves the head handler short of bytes is buffered. *)
Lemma onSerialPortData_short data s h rest :
  responseHandlers s = h :: rest ->
  (length (responseBuffer s ++ data) < responseLength h)%nat ->
  onSerialPortData data s = set_responseBuffer (responseBuffer s ++ data) s.
Proof.
  intros Hh Hlen. unfold onSerialPortData. rewrite Hh. simpl responseBuffer.
  apply Nat.ltb_lt in Hlen. now rewrite Hlen.
Qed.

(** X11.  A response may arrive in pieces: while the bytes buffered for the
    head handler are fewer than it waits for, a delivery is only buffered,
    and two deliveries in a row have the effect of one delivery of their
    concatenation. *)
Theorem split_delivery (s : master) (h : responseHandler)
    (rest : list responseHandler) (d1 d2 : list Z) :
  responseHandlers s = h :: rest ->
  (length (responseBuffer s ++ d1) < responseLength h)%nat ->
  step s (Data d1) = Some (set_responseBuffer (responseBuffer s ++ d1) s) /\
  run s [Data d1; Data d2] = run s [Data (d1 ++ d2)].
Proof.
  intros Hh Hlen.
  pose proof (onSerialPortData_short d1 s h rest Hh Hlen) as H1.
  split; [simpl; now rewrite H1|].
  simpl. rewrite H1. f_equal.
  unfold onSerialPortData. simpl. rewrite Hh, <- app_assoc. reflexivity.
Qed.

Lemma split_delivery_witness :
  let s := after [Call (GetPosition 12 0); WriteDone None] in
  step s (Data [0x10]) = Some (set_responseBuffer (responseBuffer s ++ [0x10]) s) /\
  run s [Data [0x10]; Data [0x17]] = run s [Data ([0x10] ++ [0x17])].
Proof.
  apply (split_delivery (after [Call (GetPosition 12 0); WriteDone None])
           (mkHandler 0 2 (DoneGetPosition (KPromise 0))) [] [0x10] [0x17]).
  - reflexivity.
  - simpl. lia.
Defined.

Lemma run_app tr1 : forall s tr2,
  run s (tr1 ++ tr2) =
  match run s tr1 with
  | Some s1 => run s1 tr2
  | None => None
  end.
Proof.
  induction tr1 as [|e tr1 IH]; intros s tr2; simpl; [reflexivity|].
  destruct (step s e); [apply IH|reflexivity].
Qed.

(** The write of the request in flight completes: its handler is registered
    and its timer armed. *)
Lemma inflight_written r s len d :
  InFlight r s -> callback r = CbResponse len d ->
  let h := mkHandler (nextHandler s) len d in
  step s (WriteDone None) =
  Some (set_responseHandlers [h]
          (set_timers [h] (bump_nextHandler (set_writing [] s)))).
Proof.
  intros [Hq Hw Hh Ht] Hcb h. unfold step. rewrite Hw.
  unfold writeCallback, requestCallback. simpl. rewrite Hcb. simpl.
  rewrite Hh, Ht. reflexivity.
Qed.

(** The request in flight is written and answered: the first two bytes
    buffered are its response. *)
Lemma inflight_answered r s op data x0 x1 more :
  InFlight r s ->
  callback r = CbResponse 2 (DoneGetPosition (KPromise op)) ->
  responseBuffer s ++ data = x0 :: x1 :: more ->
  run s [WriteDone None; Data data] =
  Some (log_outcome op (Resolved (VNum (decodePosition [x0; x1]))) (answered r s)).
Proof.
  intros HF Hcb Hdata. cbn [run].
  rewrite (inflight_written r s 2 _ HF Hcb).
  destruct HF as [Hq Hw Hh Ht].
  set (h := mkHandler (nextHandler s) 2 (DoneGetPosition (KPromise op))).
  cbn [step].
  rewrite (onSerialPortData_satisfied data _ h [])
    by (simpl; rewrite ?Hdata; simpl; auto; lia).
  simpl responseBuffer. rewrite Hdata. simpl drop. simpl take.
  unfold handlerCallback, invokeDone, complete, shift_request, clearTimeout.
  simpl. rewrite Hq. simpl. rewrite Nat.eqb_refl. simpl.
  unfold answered, log_outcome, log_shifted. simpl.
  destruct more; reflexivity.
Qed.

(** The request in flight is written and only part of its response arrives
    before the timer fires: the bytes received stay in the buffer. *)
Lemma inflight_timeout r s op data :
  InFlight r s ->
  callback r = CbResponse 2 (DoneGetPosition (KPromise op)) ->
  (length (responseBuffer s ++ data) < 2)%nat ->
  run s [WriteDone None; Data data; Timeout (nextHandler s)] =
  Some (log_outcome op (Rejected ResponseTimeout)
          (set_responseBuffer (responseBuffer s ++ data) (answered r s))).
Proof.
  intros HF Hcb Hlen. cbn [run].
  rewrite (inflight_written r s 2 _ HF Hcb).
  destruct HF as [Hq Hw Hh Ht].
  set (h := mkHandler (nextHandler s) 2 (DoneGetPosition (KPromise op))).
  set (s1 := set_responseHandlers [h] _).
  assert (Hd : step s1 (Data data) =
                Some (set_responseBuffer (responseBuffer s1 ++ data) s1))
    by (cbn [step]; now rewrite (onSerialPortData_short data s1 h [] eq_refl Hlen)).
  rewrite Hd.
  rewrite (timeout_single _ h (KPromise op)) by reflexivity.
  unfold complete, shift_request. simpl. rewrite Hq. simpl.
  unfold answered, log_outcome, log_shifted. simpl. reflexivity.
Qed.

(** A read issued on an open engine with nothing queued, owed or awaited is
    in flight, whatever the response buffer holds. *)
Lemma getPosition_inflight device channel op s :
  isOpen s = true -> requestQueue s = [] -> writing s = [] ->
  responseHandlers s = [] -> timers s = [] ->
  let s0 := bump_nextOp s in
  let r := mkRequest (nextRequest s) (getPositionFrame device channel)
             (CbResponse 2 (DoneGetPosition (KPromise op))) in
  reject_with (KPromise op) (getPosition device channel (KPromise op) s0) s0 =
    serialPort_write r (log_enqueued r (set_requestQueue [r] s0)) /\
  InFlight r (serialPort_write r (log_enqueued r (set_requestQueue [r] s0))).
Proof.
  intros Hopen Hq Hw Hh Ht s0 r. unfold getPosition, requestAndResponse.
  rewrite request_idle by assumption. split; [reflexivity|].
  constructor; simpl; rewrite ?Hw; auto.
Qed.

(** X12.  A byte received before a response timeout stays in the response
    buffer.  The next response is framed from it: the call that follows
    resolves with the stale byte as low byte and the first byte of its own
    response as high byte, and the second byte of its response is dropped. *)
Theorem stale_byte_misframes_next_response (s : master)
    (device channel device' channel' b lo hi : Z) :
  Quiet s ->
  0 <= b < 256 -> 0 <= lo < 256 -> 0 <= hi < 256 ->
  exists s',
    run s [Call (GetPosition device channel); WriteDone None; Data [b];
           Timeout (nextHandler s);
           Call (GetPosition device' channel'); WriteDone None;
           Data [lo; hi]] = Some s' /\
    outcomes s' =
      outcomes s ++
      [(nextOp s, Rejected ResponseTimeout);
       (S (nextOp s), Resolved (VNum (lo * 256 + b)))] /\
    responseBuffer s' = [] /\
    requestQueue s' = [] /\ responseHandlers s' = [].
Proof.
  intros [Hopen Hq Hh Hb Hw Ht] Hb0 Hlo Hhi.
  set (op := nextOp s).
  destruct (getPosition_inflight device channel op s Hopen Hq Hw Hh Ht)
    as [Hcall1 HF1].
  cbv zeta in Hcall1, HF1.
  set (r1 := mkRequest (nextRequest s) (getPositionFrame device channel)
               (CbResponse 2 (DoneGetPosition (KPromise op)))) in *.
  set (s1 := serialPort_write r1 _) in *.
  set (sT := log_outcome op (Rejected ResponseTimeout)
               (set_responseBuffer (responseBuffer s1 ++ [b]) (answered r1 s1))).
  assert (Hrun1 : run s [Call (GetPosition device channel); WriteDone None;
                         Data [b]; Timeout (nextHandler s)] = Some sT).
  { change (run s [Call (GetPosition device channel); WriteDone None; Data [b];
                   Timeout (nextHandler s)])
      with (run (reject_with (KPromise op)
                   (getPosition device channel (KPromise op) (bump_nextOp s))
                   (bump_nextOp s))
              [WriteDone None; Data [b]; Timeout (nextHandler s1)]).
    rewrite Hcall1. apply (inflight_timeout r1 s1 op [b] HF1 eq_refl).
    simpl. rewrite Hb. simpl. lia. }
  set (op' := nextOp sT).
  destruct (getPosition_inflight device' channel' op' sT)
    as [Hcall2 HF2]; try reflexivity.
  { simpl. exact Hopen. }
  cbv zeta in Hcall2, HF2.
  set (r2 := mkRequest (nextRequest sT) (getPositionFrame device' channel')
               (CbResponse 2 (DoneGetPosition (KPromise op')))) in *.
  set (s2 := serialPort_write r2 _) in *.
  exists (log_outcome op' (Resolved (VNum (decodePosition [b; lo]))) (answered r2 s2)).
  split.
  - change [Call (GetPosition device channel); WriteDone None; Data [b];
            Timeout (nextHandler s); Call (GetPosition device' channel');
            WriteDone None; Data [lo; hi]]
      with ([Call (GetPosition device channel); WriteDone None; Data [b];
             Timeout (nextHandler s)] ++
            [Call (GetPosition device' channel'); WriteDone None; Data [lo; hi]]).
    rewrite run_app, Hrun1.
    change (run sT [Call (GetPosition device' channel'); WriteDone None;
                    Data [lo; hi]])
      with (run (reject_with (KPromise op')
                   (getPosition device' channel' (KPromise op') (bump_nextOp sT))
                   (bump_nextOp sT))
              [WriteDone None; Data [lo; hi]]).
    rewrite Hcall2.
    apply (inflight_answered r2 s2 op' [lo; hi] b lo [hi] HF2 eq_refl).
    simpl. rewrite Hb. reflexivity.
  - rewrite decodePosition_bytes by assumption.
    simpl. rewrite <- app_assoc. repeat split; reflexivity.
Qed.

Lemma stale_byte_misframes_next_response_witness :
  exists s',
    run (init true)
      [Call (GetPosition 12 0); WriteDone None; Data [0xFF];
       Timeout (nextHandler (init true));
       Call (GetPosition 12 1); WriteDone None; Data [0x10; 0x17]] = Some s' /\
    outcomes s' =
      outcomes (init true) ++
      [(nextOp (init true), Rejected ResponseTimeout);
       (S (nextOp (init true)), Resolved (VNum (0x10 * 256 + 0xFF)))] /\
    responseBuffer s' = [] /\
    requestQueue s' = [] /\ responseHandlers s' = [].
Proof.
  apply (stale_byte_misframes_next_response (init true) 12 0 12 1 0xFF 0x10 0x17);
    [constructor; reflexivity | lia | lia | lia].
Defined.

(** X13.  Closing the port does not fail the operation in flight: a read
    issued before the port closed still resolves when its write completes
    and its response arrives. *)
Theorem close_keeps_operation_in_flight (s : master) (device channel p : Z) :
  Quiet s ->
  0 <= p <= 65535 ->
  exists s',
    run s [Call (GetPosition device channel); PortClose; WriteDone None;
           Data (positionBytes p)] = Some s' /\
    outcomes s' = outcomes s ++ [(nextOp s, Resolved (VNum p))] /\
    isOpen s' = false /\
    requestQueue s' = [] /\ responseHandlers s' = [].
Proof.
  intros [Hopen Hq Hh Hb Hw Ht] Hp.
  set (op := nextOp s).
  destruct (getPosition_inflight device channel op s Hopen Hq Hw Hh Ht)
    as [Hcall1 HF1].
  cbv zeta in Hcall1, HF1.
  set (r1 := mkRequest (nextRequest s) (getPositionFrame device channel)
               (CbResponse 2 (DoneGetPosition (KPromise op)))) in *.
  set (s1 := serialPort_write r1 _) in *.
  assert (HF : InFlight r1 (set_isOpen false s1)).
  { destruct HF1. constructor; auto. }
  exists (log_outcome op (Resolved (VNum (decodePosition (positionBytes p))))
            (answered r1 (set_isOpen false s1))).
  split.
  - change (run s [Call (GetPosition device channel); PortClose; WriteDone None;
                   Data (positionBytes p)])
      with (match step (reject_with (KPromise op)
                          (getPosition device channel (KPromise op) (bump_nextOp s))
                          (bump_nextOp s)) PortClose with
            | Some s' => run s' [WriteDone None; Data (positionBytes p)]
            | None => None
            end).
    rewrite Hcall1. cbn [step].
    apply (inflight_answered r1 (set_isOpen false s1) op (positionBytes p)
             (Z.land p 0xFF) (Z.shiftr p 8) [] HF eq_refl).
    simpl. rewrite Hb. reflexivity.
  - rewrite decodePosition_positionBytes by assumption.
    repeat split; reflexivity.
Qed.

Lemma close_keeps_operation_in_flight_witness :
  exists s',
    run (init true) [Call (GetPosition 12 0); PortClose; WriteDone None;
           Data (positionBytes 5904)] = Some s' /\
    outcomes s' =
      outcomes (init true) ++ [(nextOp (init true), Resolved (VNum 5904))] /\
    isOpen s' = false /\
    requestQueue s' = [] /\ responseHandlers s' = [].
Proof.
  apply (close_keeps_operation_in_flight (init true) 12 0 5904);
    [constructor; reflexivity | lia].
Defined.

(** ** The ledger of operations *)

(** Settling a promise either settles the caller's promise or issues one
    read on behalf of the same operation. *)
Lemma settle_cases_promise (k : continuation) (r : result) (s : master) :
  (exists r', settle k r s = log_outcome (promise_of k) r' s) \/
  (exists device channel cb,
      request (getPositionFrame device channel) cb s = inr (settle k r s) /\
      cb_promise cb = promise_of k).
Proof.
  revert r. induction k; intros r; simpl.
  - left. eauto.
  - destruct r as [v|e]; [|apply IHk].
    unfold getPosition, requestAndResponse.
    destruct (request _ _ s) eqn:Hreq; [apply IHk|].
    right. do 3 eexists. split; [exact Hreq|reflexivity].
  - destruct r as [v|e]; [|apply IHk].
    destruct (strict_neq _ _); apply IHk.
  - destruct r as [v|e]; [|apply IHk].
    destruct rest as [|c rest']; simpl; [apply IHk|].
    unfold getPosition, requestAndResponse.
    destruct (request _ _ s) eqn:Hreq; [apply IHk|].
    right. do 3 eexists. split; [exact Hreq|reflexivity].
  - destruct r as [v|e]; [|apply IHk].
    destruct channels as [|c rest']; simpl; [apply IHk|].
    unfold getPosition, requestAndResponse.
    destruct (request _ _ s) eqn:Hreq; [apply IHk|].
    right. do 3 eexists. split; [exact Hreq|reflexivity].
  - destruct r as [v|e]; [|apply IHk].
    destruct (checkTargets _ _ _); apply IHk.
Qed.

Lemma request_pushes fr cb s s' :
  request fr cb s = inr s' ->
  requestQueue s' = requestQueue s ++ [mkRequest (nextRequest s) fr cb] /\
  enqueued s' = enqueued s ++ [mkRequest (nextRequest s) fr cb].
Proof.
  unfold request. destruct (isOpen s); simpl; [|discriminate].
  destruct (_ =? _)%nat; intros [= <-]; unfold writeNextRequest; simpl;
    try (destruct (requestQueue s ++ _); simpl); auto.
Qed.

Lemma LedgerMid_log op r s : LedgerMid op s -> Ledger (log_outcome op r s).
Proof.
  intros [Hp Hh]. constructor; [|exact Hh].
  unfold settled, pending in *. simpl. rewrite map_app. simpl.
  rewrite <- app_assoc. simpl.
  etransitivity; [|exact Hp]. symmetry. apply Permutation_middle.
Qed.

Lemma LedgerMid_request op fr cb s s' :
  LedgerMid op s -> request fr cb s = inr s' -> cb_promise cb = op ->
  Ledger s'.
Proof.
  intros [Hp Hh] Hreq Hcb.
  destruct (request_pushes fr cb s s' Hreq) as [Hq _].
  destruct (request_keeps fr cb s s' Hreq) as (_ & _ & Hh' & _ & _ & Ho & _ & _ & Hn).
  constructor.
  - unfold settled, pending in *. rewrite Hq, Ho, Hn, map_app. simpl.
    rewrite Hcb. rewrite app_assoc.
    etransitivity; [|exact Hp].
    symmetry. apply Permutation_cons_append.
  - intros h Hin. rewrite Hh' in Hin.
    destruct (Hh h Hin) as (r & q & len & Hrq & Hcbr).
    exists r, (q ++ [mkRequest (nextRequest s) fr cb]), len.
    rewrite Hq, Hrq. auto.
Qed.

Lemma LedgerMid_settle k r s : LedgerMid (promise_of k) s -> Ledger (settle k r s).
Proof.
  intros HM.
  destruct (settle_cases_promise k r s) as [[r' ->]|(d & c & cb & Hreq & Hcb)].
  - now apply LedgerMid_log.
  - eapply LedgerMid_request; eauto.
Qed.

(** Taking the head request off the queue opens the continuation of its
    operation. *)
Lemma Ledger_shift how s r q :
  Ledger s -> requestQueue s = r :: q -> responseHandlers s = [] ->
  LedgerMid (cb_promise (callback r)) (shift_request how s).
Proof.
  intros [Hp Hh] Hq Hhs. unfold shift_request. rewrite Hq.
  constructor.
  - unfold settled, pending in *. simpl. rewrite Hq in Hp. simpl in Hp.
    etransitivity; [|exact Hp]. apply Permutation_middle.
  - simpl. rewrite Hhs. intros h Hin. inversion Hin.
Qed.

Lemma LedgerMid_writeNext op s : LedgerMid op s -> LedgerMid op (writeNextRequest s).
Proof.
  intros [Hp Hh]. unfold writeNextRequest.
  destruct (requestQueue s) eqn:E; constructor; simpl; rewrite ?E; auto.
Qed.

Lemma Ledger_complete s r q :
  Ledger s -> requestQueue s = r :: q -> responseHandlers s = [] ->
  LedgerMid (cb_promise (callback r)) (complete s).
Proof.
  intros HL Hq Hhs. unfold complete.
  pose proof (Ledger_shift ByComplete s r q HL Hq Hhs) as HM.
  destruct (requestQueue (shift_request ByComplete s)); [exact HM|].
  now apply LedgerMid_writeNext.
Qed.

Lemma Ledger_handlerCallback s h x r q :
  Ledger s -> requestQueue s = r :: q -> responseHandlers s = [] ->
  (exists len, callback r = CbResponse len (done h)) ->
  Ledger (handlerCallback h x s).
Proof.
  intros HL Hq Hhs [len Hcb]. unfold handlerCallback, invokeDone.
  pose proof (Ledger_complete s r q HL Hq Hhs) as HM.
  rewrite Hcb in HM. simpl in HM.
  destruct (done h) as [k]. destruct x; now apply LedgerMid_settle.
Qed.

Lemma Ledger_set_fields s s' :
  Ledger s ->
  outcomes s' = outcomes s -> requestQueue s' = requestQueue s ->
  nextOp s' = nextOp s -> responseHandlers s' = responseHandlers s ->
  Ledger s'.
Proof.
  intros [Hp Hh] Ho Hq Hn Hhs. constructor.
  - unfold settled, pending. now rewrite Ho, Hq, Hn.
  - intros h Hin. rewrite Hhs in Hin. rewrite Hq. auto.
Qed.

Lemma LedgerMid_reject_with k k' fr cb s :
  LedgerMid (promise_of k) s -> cb_promise cb = promise_of k ->
  promise_of k' = promise_of k ->
  Ledger (reject_with k' (request fr cb s) s).
Proof.
  intros HM Hcb Hk. destruct (request fr cb s) eqn:Hreq; simpl.
  - apply LedgerMid_settle. now rewrite Hk.
  - eapply LedgerMid_request; eauto.
Qed.

Lemma LedgerMid_call c k s : LedgerMid (promise_of k) s -> Ledger (call c k s).
Proof.
  intros HM.
  destruct c; simpl;
    unfold trySetTarget, setTarget, trySetMultipleTargets, setMultipleTargets,
      getMultiplePositions, getMultiplePositions_loop, getPosition,
      requestAndForget, requestAndResponse.
  1-5: apply (LedgerMid_reject_with k); auto.
  destruct channels as [|ch rest]; simpl; [now apply LedgerMid_settle|].
  unfold getPosition, requestAndResponse.
  destruct (request _ _ s) eqn:Hreq.
  - now apply LedgerMid_settle.
  - eapply LedgerMid_request; eauto.
Qed.

Lemma Ledger_init open : Ledger (init open).
Proof.
  constructor; simpl; [constructor|]. intros h Hin. inversion Hin.
Qed.

Lemma Ledger_step s e s' :
  Inv s -> Ledger s -> step s e = Some s' -> Ledger s'.
Proof.
  intros HI HL. destruct e as [c|err|data|n| |]; simpl.
  - intros [= <-]. apply LedgerMid_call. destruct HL as [Hp Hh].
    constructor; [|exact Hh].
    change (Permutation (nextOp s :: settled s ++ pending s)
              (seq 0 (S (nextOp s)))).
    rewrite seq_S. simpl.
    etransitivity; [apply Permutation_cons_append|].
    now apply Permutation_app_tail.
  - destruct (writing s) as [|r w] eqn:Hw; [discriminate|].
    intros [= <-].
    pose proof (inv_one s HI) as H1. rewrite Hw in H1. simpl in H1.
    destruct (responseHandlers s) eqn:Hhs; [|simpl in H1; lia].
    pose proof (inv_writing s HI r) as Hhd. rewrite Hw in Hhd.
    specialize (Hhd (list_elem_of_here _ _)).
    destruct (requestQueue s) as [|r0 q] eqn:Hq; [discriminate|].
    injection Hhd as ->.
    assert (HL1 : Ledger (set_writing w s))
      by (apply (Ledger_set_fields s); auto).
    unfold writeCallback, requestCallback, invokeDone.
    destruct err as [e|]; simpl.
    + pose proof (Ledger_shift ByWriteError (set_writing w s) r q HL1 Hq Hhs) as HM.
      destruct (callback r) as [k|len [k]]; now apply LedgerMid_settle.
    + destruct (callback r) as [k|len d] eqn:Hcb.
      * apply LedgerMid_settle.
        pose proof (Ledger_complete (set_writing w s) r q HL1 Hq Hhs) as HM.
        now rewrite Hcb in HM.
      * destruct HL as [Hp Hh]. constructor; [exact Hp|].
        simpl. rewrite Hhs, Hq. simpl. intros h Hin.
        apply list_elem_of_singleton in Hin. subst h. simpl.
        exists r, q, len. auto.
  - intros [= <-]. unfold onSerialPortData.
    destruct (responseHandlers s) as [|h rest] eqn:Hhs; [assumption|].
    destruct (Inv_single_handler s h rest HI Hhs) as (-> & _ & _).
    destruct (_ <? _)%nat; [apply (Ledger_set_fields s); auto|].
    destruct (ledger_handlers s HL h) as (r & q & len & Hq & Hcb).
    { rewrite Hhs. apply list_elem_of_here. }
    set (s4 := handlerCallback h _ _).
    assert (H4 : Ledger s4).
    { apply (Ledger_handlerCallback _ h _ r q); eauto.
      destruct HL as [Hp Hh]. constructor; [exact Hp|].
      intros h' Hin. inversion Hin. }
    clearbody s4.
    destruct (responseBuffer s4); [exact H4|].
    destruct (responseHandlers s4); [|exact H4].
    apply (Ledger_set_fields s4); auto.
  - destruct (find_timer n s) as [h|] eqn:Hf; [|discriminate].
    intros [= <-].
    destruct (responseHandlers s) as [|h0 rest] eqn:Hhs.
    { unfold find_timer in Hf. rewrite (inv_timers s HI), Hhs in Hf. discriminate. }
    destruct (Inv_single_handler s h0 rest HI Hhs) as (-> & Hw & Ht).
    destruct (find_timer_single n s h0 h Ht Hf) as [-> _].
    destruct (ledger_handlers s HL h0) as (r & q & len & Hq & Hcb).
    { rewrite Hhs. apply list_elem_of_here. }
    unfold onTimeout. simpl responseHandlers. rewrite Hhs, indexOf_head.
    change (splice1 0 [h0]) with (@nil responseHandler).
    apply (Ledger_handlerCallback _ h0 _ r q); eauto.
    destruct HL as [Hp Hh]. constructor; [exact Hp|].
    intros h' Hin. inversion Hin.
  - intros [= <-]. apply (Ledger_set_fields s); auto.
  - intros [= <-]. apply (Ledger_set_fields s); auto.
Qed.

Lemma Ledger_run tr : forall s s',
  Inv s -> Ledger s -> run s tr = Some s' -> Ledger s'.
Proof.
  induction tr as [|e tr IH]; simpl; intros s s' HI HL.
  - now intros [= <-].
  - destruct (step s e) as [s1|] eqn:Hs; [|discriminate].
    apply IH; [eapply Inv_step|eapply Ledger_step]; eauto.
Qed.

(** X14.  In every state the engine reaches, each operation issued so far
    is either settled or has exactly one request in the queue, never both:
    no promise is settled twice and no operation is lost. *)
Theorem operations_settled_or_pending (open : bool) (tr : list event) (s : master) :
  run (init open) tr = Some s ->
  Permutation (settled s ++ pending s) (seq 0 (nextOp s)) /\
  NoDup (settled s) /\
  (forall op, (op < nextOp s)%nat <-> op ∈ settled s \/ op ∈ pending s).
Proof.
  intros Hrun.
  pose proof (Ledger_run tr _ _ (Inv_init open) (Ledger_init open) Hrun) as [Hp _].
  split; [exact Hp|]. split.
  - assert (Hnd : NoDup (settled s ++ pending s)).
    { rewrite Hp. apply NoDup_ListNoDup, List.seq_NoDup. }
    apply NoDup_app in Hnd. tauto.
  - intros op. rewrite <- elem_of_app, Hp, elem_of_seq. lia.
Qed.

Lemma operations_settled_or_pending_witness :
  let s := after [Call (SetTarget 12 0 6000); Call (GetPosition 12 0);
                  WriteDone None] in
  Permutation (settled s ++ pending s) (seq 0 (nextOp s)) /\
  NoDup (settled s) /\
  (forall op, (op < nextOp s)%nat <-> op ∈ settled s \/ op ∈ pending s).
Proof.
  apply (operations_settled_or_pending true
           [Call (SetTarget 12 0 6000); Call (GetPosition 12 0); WriteDone None]).
  vm_compute. reflexivity.
Defined.

(** X15.  In every state the engine reaches at most one response handler is
    outstanding; its timer, and no other, is armed; no write is owed while a
    response is awaited; and the handler belongs to the request at the head
    of the queue, which stays there until the response or the timeout. *)
Theorem single_handler_for_head (open : bool) (tr : list event) (s : master) :
  run (init open) tr = Some s ->
  (length (responseHandlers s) <= 1)%nat /\
  timers s = responseHandlers s /\
  (forall h, h ∈ responseHandlers s ->
     writing s = [] /\
     exists r q len, requestQueue s = r :: q /\
                     callback r = CbResponse len (done h) /\
                     r ∈ written s).
Proof.
  intros Hrun.
  pose proof (Inv_reachable _ _ _ Hrun) as HI.
  pose proof (Ledger_run tr _ _ (Inv_init open) (Ledger_init open) Hrun) as [_ Hh].
  pose proof (inv_one s HI) as H1.
  split; [lia|]. split; [apply (inv_timers s HI)|].
  intros h Hin.
  destruct (responseHandlers s) as [|h0 rest] eqn:Hhs; [inversion Hin|].
  destruct (Inv_single_handler s h0 rest HI Hhs) as (-> & Hw & _).
  split; [exact Hw|].
  destruct (Hh h Hin) as (r & q & len & Hq & Hcb).
  exists r, q, len. repeat split; auto.
  pose proof (inv_written s HI) as Hwr. pose proof (inv_queue s HI) as Hqe.
  unfold busy in Hwr. rewrite Hw, Hhs in Hwr.
  rewrite Hwr. rewrite Hq in Hqe.
  apply list_elem_of_lookup. exists (length (shifted s)).
  rewrite lookup_take_lt by lia.
  rewrite <- (Nat.add_0_r (length (shifted s))), <- lookup_drop, <- Hqe.
  reflexivity.
Qed.

Lemma single_handler_for_head_witness :
  let s := after [Call (GetPosition 12 0); Call (SetTarget 12 1 6000);
                  WriteDone None] in
  (length (responseHandlers s) <= 1)%nat /\
  timers s = responseHandlers s /\
  (forall h, h ∈ responseHandlers s ->
     writing s = [] /\
     exists r q len, requestQueue s = r :: q /\
                     callback r = CbResponse len (done h) /\
                     r ∈ written s).
Proof.
  apply (single_handler_for_head true
           [Call (GetPosition 12 0); Call (SetTarget 12 1 6000); WriteDone None]).
  vm_compute. reflexivity.
Defined.

(** ** Frames handed to the port *)

Lemma wellFormed_setTargetFrame device channel target :
  wellFormed (setTargetFrame device channel target).
Proof.
  split; [reflexivity|]. unfold setTargetFrame.
  repeat (constructor; [apply Z.mod_pos_bound; lia|]). constructor.
Qed.

Lemma wellFormed_getPositionFrame device channel :
  wellFormed (getPositionFrame device channel).
Proof.
  split; [reflexivity|]. unfold getPositionFrame.
  repeat (constructor; [apply Z.mod_pos_bound; lia|]). constructor.
Qed.

Lemma wellFormed_setMultipleTargetsFrame device channel targets :
  wellFormed (setMultipleTargetsFrame device channel targets).
Proof.
  change (setMultipleTargetsFrame device channel targets) with
    (fillMultipleTargetsFrame (replicate (5 + length targets * 2) 0)
       device channel targets).
  rewrite fillMultipleTargetsFrame_eq by apply length_replicate.
  split; [reflexivity|].
  apply Forall_app. split.
  - repeat (constructor; [try lia; apply Z.mod_pos_bound; lia|]). constructor.
  - apply Forall_flat_map, Forall_forall. intros t _. unfold targetBytes.
    repeat (constructor; [apply Z.mod_pos_bound; lia|]). constructor.
Qed.

Lemma enqueued_complete s : enqueued (complete s) = enqueued s.
Proof.
  unfold complete, shift_request, writeNextRequest.
  destruct (requestQueue s) as [|r [|r' q]] eqn:E; simpl; rewrite ?E; reflexivity.
Qed.

Lemma enqueued_shift how s : enqueued (shift_request how s) = enqueued s.
Proof. unfold shift_request. now destruct (requestQueue s). Qed.

Lemma wellFormed_request fr cb s s' :
  Forall wellFormed (frames (enqueued s)) -> wellFormed fr ->
  request fr cb s = inr s' -> Forall wellFormed (frames (enqueued s')).
Proof.
  intros Hs Hfr Hreq. destruct (request_pushes fr cb s s' Hreq) as [_ ->].
  unfold frames in *. rewrite map_app. apply Forall_app. split; auto.
  constructor; auto.
Qed.

Lemma wellFormed_settle k r s :
  Forall wellFormed (frames (enqueued s)) ->
  Forall wellFormed (frames (enqueued (settle k r s))).
Proof.
  intros Hs.
  destruct (settle_cases_promise k r s) as [[r' ->]|(d & c & cb & Hreq & _)].
  - exact Hs.
  - eapply wellFormed_request; eauto. apply wellFormed_getPositionFrame.
Qed.

Lemma wellFormed_reject_with k fr cb s :
  Forall wellFormed (frames (enqueued s)) -> wellFormed fr ->
  Forall wellFormed (frames (enqueued (reject_with k (request fr cb s) s))).
Proof.
  intros Hs Hfr. destruct (request fr cb s) eqn:Hreq; simpl.
  - now apply wellFormed_settle.
  - eapply wellFormed_request; eauto.
Qed.

Lemma wellFormed_handlerCallback h x s :
  Forall wellFormed (frames (enqueued s)) ->
  Forall wellFormed (frames (enqueued (handlerCallback h x s))).
Proof.
  intros Hs. unfold handlerCallback, invokeDone.
  destruct (done h) as [k].
  destruct x; apply wellFormed_settle; now rewrite enqueued_complete.
Qed.

Lemma wellFormed_call c k s :
  Forall wellFormed (frames (enqueued s)) ->
  Forall wellFormed (frames (enqueued (call c k s))).
Proof.
  intros Hs.
  destruct c; simpl;
    unfold trySetTarget, setTarget, trySetMultipleTargets, setMultipleTargets,
      getMultiplePositions, getMultiplePositions_loop, getPosition,
      requestAndForget, requestAndResponse.
  1-5: apply wellFormed_reject_with; auto using wellFormed_setTargetFrame,
         wellFormed_getPositionFrame, wellFormed_setMultipleTargetsFrame.
  destruct channels as [|ch rest]; simpl; [now apply wellFormed_settle|].
  unfold getPosition, requestAndResponse.
  destruct (request _ _ s) eqn:Hreq.
  - now apply wellFormed_settle.
  - eapply wellFormed_request; eauto. apply wellFormed_getPositionFrame.
Qed.

Lemma wellFormed_step s e s' :
  Forall wellFormed (frames (enqueued s)) -> step s e = Some s' ->
  Forall wellFormed (frames (enqueued s')).
Proof.
  intros Hs. destruct e as [c|err|data|n| |]; simpl.
  - intros [= <-]. apply wellFormed_call. exact Hs.
  - destruct (writing s) as [|r w]; [discriminate|]. intros [= <-].
    unfold writeCallback, requestCallback, invokeDone.
    destruct err as [e|]; simpl; destruct (callback r) as [k|len [k]]; simpl;
      try apply wellFormed_settle;
      rewrite ?enqueued_complete, ?enqueued_shift; exact Hs.
  - intros [= <-]. unfold onSerialPortData.
    destruct (responseHandlers s) as [|h rest]; [exact Hs|].
    destruct (_ <? _)%nat; [exact Hs|].
    set (s4 := handlerCallback h _ _).
    assert (H4 : Forall wellFormed (frames (enqueued s4)))
      by (apply wellFormed_handlerCallback; exact Hs).
    clearbody s4.
    destruct (responseBuffer s4); [exact H4|].
    destruct (responseHandlers s4); exact H4.
  - destruct (find_timer n s) as [h|]; [|discriminate]. intros [= <-].
    unfold onTimeout. apply wellFormed_handlerCallback. exact Hs.
  - intros [= <-]. exact Hs.
  - intros [= <-]. exact Hs.
Qed.

Lemma wellFormed_run tr : forall s s',
  Forall wellFormed (frames (enqueued s)) -> run s tr = Some s' ->
  Forall wellFormed (frames (enqueued s')).
Proof.
  induction tr as [|e tr IH]; simpl; intros s s' Hs.
  - now intros [= <-].
  - destruct (step s e) as [s1|] eqn:Hstep; [|discriminate].
    apply IH. eapply wellFormed_step; eauto.
Qed.

(** X16.  Every frame the engine hands to the port starts with the sync
    byte 0xAA and consists of bytes, whatever numbers the callers passed. *)
Theorem written_frames_well_formed (open : bool) (tr : list event) (s : master) :
  run (init open) tr = Some s ->
  Forall (fun fr => head fr = Some 0xAA /\ Forall (fun b => 0 <= b < 256) fr)
    (frames (written s)).
Proof.
  intros Hrun.
  assert (He : Forall wellFormed (frames (enqueued s))).
  { apply (wellFormed_run tr (init open)); [constructor|exact Hrun]. }
  pose proof (inv_written s (Inv_reachable _ _ _ Hrun)) as Hw.
  rewrite Hw. unfold frames in *.
  change (map frame ?l) with (frame <$> l). rewrite fmap_take.
  now apply Forall_take.
Qed.

Lemma written_frames_well_formed_witness :
  Forall (fun fr => head fr = Some 0xAA /\ Forall (fun b => 0 <= b < 256) fr)
    (frames (written (after [Call (SetTarget 300 (-1) 70000); WriteDone None;
                             Call (GetPosition 12 0)]))).
Proof.
  apply (written_frames_well_formed true
           [Call (SetTarget 300 (-1) 70000); WriteDone None; Call (GetPosition 12 0)]).
  vm_compute. reflexivity.
Defined.

(** ** Device listing *)

Lemma groupDevices_from_lookup devices : forall grouped grouped' k,
  Listing.groupDevices_from grouped devices = Some grouped' ->
  grouped' !! k = fold_left (entry_after k) devices (grouped !! k).
Proof.
  induction devices as [|d ds IH]; simpl; intros g g' k.
  - now intros [= <-].
  - unfold Listing.groupDevice. case_bool_decide; [discriminate|].
    intros Hrun. rewrite (IH _ _ k Hrun). f_equal.
    unfold entry_after. case_bool_decide as Hk.
    + subst k. rewrite lookup_insert_eq. now destruct (g !! _).
    + now rewrite lookup_insert_ne.
Qed.

Lemma groupDevices_from_total devices : forall grouped,
  Forall (fun d => Listing.key_of (Listing.serial d) ∉ Listing.inherited) devices ->
  is_Some (Listing.groupDevices_from grouped devices).
Proof.
  induction devices as [|d ds IH]; simpl; intros g Hok; [eauto|].
  inversion Hok as [|? ? Hd Hds]; subst.
  unfold Listing.groupDevice. rewrite bool_decide_eq_false_2 by exact Hd.
  now apply IH.
Qed.

Lemma get_assign p q v e :
  Listing.get p (Listing.assign q v e) =
    if bool_decide (q = p) then Some v else Listing.get p e.
Proof.
  destruct p as [[]|], q as [[]|]; reflexivity.
Qed.

Lemma last_filter_cons {A} (P : A -> bool) (x : A) (l : list A) :
  last (List.filter P (x :: l)) =
    match last (List.filter P l) with
    | Some y => Some y
    | None => if P x then Some x else None
    end.
Proof.
  simpl. destruct (P x); [|now destruct (last _)].
  rewrite last_cons. now destruct (last _).
Qed.

Lemma entry_after_existing k devices : forall e,
  exists e',
    fold_left (entry_after k) devices (Some e) = Some e' /\
    Listing.serialNumber e' = Listing.serialNumber e /\
    Listing.channelCount e' = Listing.channelCount e /\
    forall p, Listing.get p e' =
      match last (List.filter (assigns k p) devices) with
      | Some d => Some (Listing.path d)
      | None => Listing.get p e
      end.
Proof.
  induction devices as [|d ds IH]; intros e; cbn [fold_left].
  - exists e. auto.
  - unfold entry_after at 2. case_bool_decide as Hk; cbv beta iota.
    + destruct (IH (Listing.assign (Listing.port d) (Listing.path d) e))
        as (e' & -> & Hs & Hc & Hp).
      exists e'. split; [reflexivity|].
      split; [rewrite Hs; now destruct (Listing.port d) as [[]|]|].
      split; [rewrite Hc; now destruct (Listing.port d) as [[]|]|].
      intros p. rewrite Hp, get_assign, last_filter_cons.
      destruct (last _); [reflexivity|]. unfold assigns.
      case_bool_decide as Hq.
      * now rewrite bool_decide_eq_true_2 by auto.
      * now rewrite bool_decide_eq_false_2 by tauto.
    + destruct (IH e) as (e' & -> & Hs & Hc & Hp).
      exists e'. repeat split; auto.
      intros p. rewrite Hp, last_filter_cons.
      destruct (last _); [reflexivity|]. unfold assigns.
      now rewrite bool_decide_eq_false_2 by tauto.
Qed.

Lemma entry_after_fresh k devices :
  match List.find (fun d => bool_decide (Listing.key_of (Listing.serial d) = k))
          devices with
  | None => fold_left (entry_after k) devices None = None
  | Some d0 =>
      exists e,
        fold_left (entry_after k) devices None = Some e /\
        Listing.serialNumber e = Listing.serial d0 /\
        Listing.channelCount e = Listing.channels d0 /\
        forall p, Listing.get p e =
          Listing.path <$> last (List.filter (assigns k p) devices)
  end.
Proof.
  induction devices as [|d ds IH]; cbn [fold_left List.find]; [reflexivity|].
  unfold entry_after at 2 4. case_bool_decide as Hk; cbv beta iota.
  - destruct (entry_after_existing k ds
                (Listing.assign (Listing.port d) (Listing.path d)
                   (Listing.mkEntry (Listing.serial d) (Listing.channels d)
                      None None None)))
      as (e' & -> & Hs & Hc & Hp).
    exists e'. split; [reflexivity|].
    split; [rewrite Hs; now destruct (Listing.port d) as [[]|]|].
    split; [rewrite Hc; now destruct (Listing.port d) as [[]|]|].
    intros p. rewrite Hp, get_assign, last_filter_cons.
    destruct (last _); [reflexivity|]. unfold assigns.
    case_bool_decide as Hq.
    + now rewrite bool_decide_eq_true_2 by auto.
    + rewrite bool_decide_eq_false_2 by tauto. now destruct p as [[]|].
  - destruct (List.find _ ds) as [d0|].
    + destruct IH as (e & -> & Hs & Hc & Hp). exists e. repeat split; auto.
      intros p. rewrite Hp, last_filter_cons.
      destruct (last _); [reflexivity|]. unfold assigns.
      now rewrite bool_decide_eq_false_2 by tauto.
    + exact IH.
Qed.

(** X17.  [groupDevices] makes one entry for each serial number among the
    devices and none besides; the serial number and the channel count of an
    entry are those of the first device with that serial number, also when a
    later device of the same serial number reports another count. *)
Theorem groupDevices_first_device_wins (devices : list Listing.device) :
  Forall (fun d => Listing.key_of (Listing.serial d) ∉ Listing.inherited)
    devices ->
  exists grouped,
    Listing.groupDevices devices = Some grouped /\
    forall k,
      match List.find
              (fun d => bool_decide (Listing.key_of (Listing.serial d) = k))
              devices with
      | None => grouped !! k = None
      | Some d0 =>
          exists e, grouped !! k = Some e /\
            Listing.serialNumber e = Listing.serial d0 /\
            Listing.channelCount e = Listing.channels d0
      end.
Proof.
  intros Hok.
  destruct (groupDevices_from_total devices ∅ Hok) as [g Hg].
  exists g. split; [exact Hg|]. intros k.
  rewrite (groupDevices_from_lookup devices ∅ g k Hg), lookup_empty.
  pose proof (entry_after_fresh k devices) as H.
  destruct (List.find _ devices); [|exact H].
  destruct H as (e & He & Hs & Hc & _). eauto.
Qed.

Lemma groupDevices_first_device_wins_witness :
  exists grouped,
    Listing.groupDevices
      [Listing.mkDevice "/dev/ttyACM0" (Some 12) (Some Listing.PortCmd)
         (Some "00123456");
       Listing.mkDevice "/dev/ttyACM1" (Some 18) (Some Listing.PortTtl)
         (Some "00123456")] = Some grouped /\
    exists e, grouped !! "00123456"%string = Some e /\
      Listing.channelCount e = Some 12.
Proof.
  destruct (groupDevices_first_device_wins
              [Listing.mkDevice "/dev/ttyACM0" (Some 12) (Some Listing.PortCmd)
                 (Some "00123456");
               Listing.mkDevice "/dev/ttyACM1" (Some 18) (Some Listing.PortTtl)
                 (Some "00123456")]) as (g & Hg & Hk).
  - repeat constructor; apply (bool_decide_unpack _); vm_compute; exact I.
  - exists g. split; [exact Hg|].
    destruct (Hk "00123456"%string) as (e & He & _ & Hc). eauto.
Defined.

(** X18.  A property [cmd], [ttl] or ["null"] of an entry holds the path of
    the last device with the entry's serial number and that port, and is
    unset when there is none: of two command ports with one serial number
    the later replaces the earlier. *)
Theorem groupDevices_last_path_wins (devices : list Listing.device)
    (grouped : gmap string Listing.entry) (k : string) (e : Listing.entry)
    (p : option Listing.portName) :
  Listing.groupDevices devices = Some grouped ->
  grouped !! k = Some e ->
  Listing.get p e =
    Listing.path <$>
      last (List.filter
              (fun d => bool_decide
                          (Listing.key_of (Listing.serial d) = k /\
                           Listing.port d = p)) devices).
Proof.
  intros Hg He.
  rewrite (groupDevices_from_lookup devices ∅ grouped k Hg), lookup_empty in He.
  pose proof (entry_after_fresh k devices) as H.
  destruct (List.find _ devices).
  - destruct H as (e' & He' & _ & _ & Hp). rewrite He' in He.
    injection He as <-. apply Hp.
  - rewrite H in He. discriminate.
Qed.

Lemma groupDevices_last_path_wins_witness :
  Listing.get (Some Listing.PortCmd)
    (Listing.mkEntry (Some "00123456"%string) (Some 12)
       (Some "/dev/ttyACM2"%string) None None) =
  Some "/dev/ttyACM2"%string.
Proof.
  apply (groupDevices_last_path_wins
           [Listing.mkDevice "/dev/ttyACM0" (Some 12) (Some Listing.PortCmd)
              (Some "00123456");
            Listing.mkDevice "/dev/ttyACM2" (Some 12) (Some Listing.PortCmd)
              (Some "00123456")]
           {[ "00123456"%string :=
                Listing.mkEntry (Some "00123456"%string) (Some 12)
                  (Some "/dev/ttyACM2"%string) None None ]}
           "00123456"%string).
  - vm_compute. reflexivity.
  - vm_compute. reflexivity.
Defined.

Section Win32_facts.

Variable match_line : string -> option (string * string).
Variable match_name : string -> option (string * string).
Variable parseInt : string -> Z.

Lemma win32_line_serial devices line :
  Forall (fun d => Listing.serial d = None) devices ->
  Forall (fun d => Listing.serial d = None)
    (Listing.win32_line match_line match_name parseInt devices line).
Proof.
  intros H. unfold Listing.win32_line.
  destruct (match_line line) as [[key value]|]; [|exact H].
  case_bool_decide.
  - apply Forall_app. split; [exact H|]. now repeat constructor.
  - destruct (_ && _); [|exact H].
    destruct (match_name value) as [[m1 m2]|]; [|exact H].
    apply Forall_alter; [exact H|]. intros d _ Hd. exact Hd.
Qed.

Lemma win32_devices_serial lines : forall devices,
  Forall (fun d => Listing.serial d = None) devices ->
  Forall (fun d => Listing.serial d = None)
    (fold_left (Listing.win32_line match_line match_name parseInt) lines devices).
Proof.
  induction lines as [|l ls IH]; simpl; intros ds H; [exact H|].
  apply IH, win32_line_serial, H.
Qed.

Lemma win32_line_length devices line :
  length (Listing.win32_line match_line match_name parseInt devices line) =
    (length devices +
       match match_line line with
       | Some (key, _) => if bool_decide (key = "DeviceID"%string) then 1 else 0
       | None => 0
       end)%nat.
Proof.
  unfold Listing.win32_line.
  destruct (match_line line) as [[key value]|]; [|lia].
  case_bool_decide.
  - rewrite length_app. reflexivity.
  - destruct (_ && _); [|lia].
    destruct (match_name value) as [[m1 m2]|]; [|lia].
    rewrite length_alter. lia.
Qed.

(** X19.  On Windows every device is pushed with a [null] serial number, so
    however many COM ports the command reports, the listing has no entry
    but the one under the key ["null"], whose [serialNumber] is [null]; it
    has that entry as soon as one line gives a [DeviceID]. *)
Theorem listWin32_single_entry (E : Type) (lines : list string) :
  exists grouped,
    Listing.listWin32 match_line match_name parseInt (@None E) lines =
      inr (Some grouped) /\
    (forall k e, grouped !! k = Some e ->
       k = "null"%string /\ Listing.serialNumber e = None) /\
    (is_Some (grouped !! "null"%string) <->
     exists line value, line ∈ lines /\
       match_line line = Some ("DeviceID"%string, value)).
Proof.
  pose proof (win32_devices_serial lines [] (Forall_nil_2 _)) as Hser.
  fold (Listing.win32_devices match_line match_name parseInt lines) in Hser.
  set (devices := Listing.win32_devices match_line match_name parseInt lines) in *.
  assert (Hok : Forall (fun d => Listing.key_of (Listing.serial d)
                                   ∉ Listing.inherited) devices).
  { eapply Forall_impl; [exact Hser|]. intros d ->.
    apply (bool_decide_unpack _). vm_compute. exact I. }
  destruct (groupDevices_from_total devices ∅ Hok) as [g Hg].
  exists g. split; [unfold Listing.listWin32; fold devices; now rewrite <- Hg|].
  assert (Hfind : forall k,
    List.find (fun d => bool_decide (Listing.key_of (Listing.serial d) = k))
      devices =
    if bool_decide (k = "null"%string) then head devices else None).
  { intros k. clear -Hser. destruct Hser as [|d ds Hd Hds]; simpl.
    - now case_bool_decide.
    - rewrite Hd. simpl. case_bool_decide as Hk.
      + subst k. reflexivity.
      + rewrite bool_decide_eq_false_2 by congruence.
        clear -Hk Hds. assert (Hk' : "null"%string <> k) by congruence.
        clear Hk. induction Hds as [|d' ds' Hd' _ IH]; simpl; [reflexivity|].
        rewrite Hd'. simpl. now rewrite bool_decide_eq_false_2. }
  split.
  - intros k e He.
    rewrite (groupDevices_from_lookup devices ∅ g k Hg), lookup_empty in He.
    pose proof (entry_after_fresh k devices) as H. rewrite Hfind in H.
    case_bool_decide as Hk.
    + split; [exact Hk|]. destruct (head devices) as [d0|] eqn:Hh.
      * destruct H as (e' & He' & Hs & _). rewrite He' in He.
        injection He as <-. rewrite Hs.
        destruct devices as [|d ds]; [discriminate|]. injection Hh as <-.
        now inversion Hser.
      * rewrite H in He. discriminate.
    + rewrite H in He. discriminate.
  - rewrite (groupDevices_from_lookup devices ∅ g _ Hg), lookup_empty.
    pose proof (entry_after_fresh "null"%string devices) as H.
    rewrite Hfind, bool_decide_eq_true_2 in H by reflexivity.
    assert (Hlen : forall ls ds,
      length (fold_left (Listing.win32_line match_line match_name parseInt) ls ds)
        = length ds \/
      exists line value, line ∈ ls /\
        match_line line = Some ("DeviceID"%string, value)).
    { clear. induction ls as [|l ls IH]; simpl; intros ds; [now left|].
      destruct (IH (Listing.win32_line match_line match_name parseInt ds l))
        as [->|(line & value & Hin & Hm)].
      - rewrite win32_line_length.
        destruct (match_line l) as [[key value]|] eqn:Hm; [|left; lia].
        case_bool_decide as Hk; [|left; lia].
        subst key. right. exists l, value. split; [left|exact Hm].
      - right. exists line, value. split; [now right|exact Hm]. }
    assert (Hgrow : forall ls ds,
      (exists line value, line ∈ ls /\
         match_line line = Some ("DeviceID"%string, value)) ->
      (0 < length (fold_left (Listing.win32_line match_line match_name parseInt)
                     ls ds))%nat).
    { clear.
      assert (Hmono : forall ls ds, (length ds <=
        length (fold_left (Listing.win32_line match_line match_name parseInt)
                  ls ds))%nat).
      { induction ls as [|l ls IH]; simpl; intros ds; [lia|].
        etransitivity; [|apply IH]. rewrite win32_line_length. lia. }
      induction ls as [|l ls IH]; simpl; intros ds (line & value & Hin & Hm).
      - inversion Hin.
      - apply elem_of_cons in Hin as [->|Hin].
        + eapply Nat.lt_le_trans; [|apply Hmono].
          rewrite win32_line_length, Hm, bool_decide_eq_true_2 by reflexivity.
          lia.
        + apply IH. eauto. }
    split.
    + intros [e He]. destruct (Hlen lines []) as [Hl|Hex]; [|exact Hex].
      fold (Listing.win32_devices match_line match_name parseInt lines) in Hl.
      fold devices in Hl. destruct devices; [|discriminate].
      simpl in He. discriminate.
    + intros Hex. specialize (Hgrow lines [] Hex).
      fold (Listing.win32_devices match_line match_name parseInt lines) in Hgrow.
      fold devices in Hgrow.
      destruct devices as [|d ds]; [simpl in Hgrow; lia|].
      simpl head in H. destruct H as (e & -> & _). eauto.
Qed.

End Win32_facts.
